(** * Knowledge retrieval for the streaming avatar: a shallow embedding

    This development models the retrieval-augmented turn pipeline of the
    avatar application:
    - [Route]: the [POST] handler of [app/api/knowledge-search/route.ts];
    - [Chunk]: [splitText] of the ingestion script;
    - [TextTurn]: [handleSend] of [components/AvatarSession/TextInput.tsx];
    - [Voice]: the voice-session event handlers registered by
      [startSessionV2] (USER_START, USER_TALKING_MESSAGE, USER_STOP,
      USER_END_MESSAGE), as an event-driven state machine.

    JavaScript strings are sequences of UTF-16 code units, so a string is a
    [list N] and [length] is the JavaScript [.length]. *)

From Stdlib Require Import String Ascii.
From Stdlib Require Import List ZArith QArith Lia Sorting.Sorted.
Import ListNotations.
Open Scope list_scope.

(** ** JavaScript strings *)
Module Js.

Definition jsstr := list N.

(** ASCII literal to UTF-16 code units. *)
Fixpoint of_ascii (s : string) : jsstr :=
  match s with
  | EmptyString => []
  | String c r => N_of_ascii c :: of_ascii r
  end.

(** WhiteSpace and LineTerminator code points removed by [String.prototype.trim]. *)
Definition is_js_ws (c : N) : bool :=
  existsb (N.eqb c)
    [9; 10; 11; 12; 13; 32; 160; 5760; 8232; 8233; 8239; 8287; 12288; 65279]%N
  || ((8192 <=? c)%N && (c <=? 8202)%N).

Fixpoint drop_ws (s : jsstr) : jsstr :=
  match s with
  | [] => []
  | c :: r => if is_js_ws c then drop_ws r else s
  end.

(** [s.trim()] *)
Definition trim (s : jsstr) : jsstr := rev (drop_ws (rev (drop_ws s))).

(** Relative index of [String.prototype.slice]. *)
Definition rel_index (len k : Z) : Z :=
  if (k <? 0)%Z then Z.max (len + k) 0 else Z.min k len.

(** [s.slice(st, en)] *)
Definition slice (s : jsstr) (st en : Z) : jsstr :=
  let len := Z.of_nat (length s) in
  let from := rel_index len st in
  let to := rel_index len en in
  firstn (Z.to_nat (to - from)) (skipn (Z.to_nat from) s).

(** Decimal rendering of a number inside a template literal. *)
Fixpoint uint_to_js (d : Decimal.uint) : jsstr :=
  match d with
  | Decimal.Nil => []
  | Decimal.D0 r => 48%N :: uint_to_js r
  | Decimal.D1 r => 49%N :: uint_to_js r
  | Decimal.D2 r => 50%N :: uint_to_js r
  | Decimal.D3 r => 51%N :: uint_to_js r
  | Decimal.D4 r => 52%N :: uint_to_js r
  | Decimal.D5 r => 53%N :: uint_to_js r
  | Decimal.D6 r => 54%N :: uint_to_js r
  | Decimal.D7 r => 55%N :: uint_to_js r
  | Decimal.D8 r => 56%N :: uint_to_js r
  | Decimal.D9 r => 57%N :: uint_to_js r
  end.

Definition show_nat (n : nat) : jsstr := uint_to_js (Nat.to_uint n).

(** [arr.join(sep)] *)
Fixpoint join (sep : jsstr) (l : list jsstr) : jsstr :=
  match l with
  | [] => []
  | [x] => x
  | x :: r => x ++ sep ++ join sep r
  end.

(** [a || b] where [a] is an optional string field: [undefined] and [""]
    are falsy. *)
Definition or_str (a : option jsstr) (b : jsstr) : jsstr :=
  match a with
  | Some ((_ :: _) as s) => s
  | _ => b
  end.

(** A JSON value of a request field: a string, or any other value together
    with its truthiness. *)
Inductive jsval :=
| JStr (s : jsstr)
| JOther (truthy : bool).

Definition truthy (v : jsval) : bool :=
  match v with
  | JStr s => negb (Nat.eqb (length s) 0)
  | JOther b => b
  end.

(** [a || b] on optional JSON fields. *)
Definition or_val (a : option jsval) (b : jsval) : jsval :=
  match a with
  | Some v => if truthy v then v else b
  | None => b
  end.

End Js.
Import Js.

(** ** The knowledge-search endpoint ([route.ts], [POST]) *)
Module Route.

(** A vector-store match: [score], [metadata.text], [metadata.source];
    each may be missing. *)
Record QueryMatch := {
  m_score : option Q;
  m_text : option jsstr;
  m_source : option jsstr
}.

(** An element of [knowledgeItems] (and of the response's [sources]). *)
Record KnowledgeItem := {
  k_score : Q;
  k_text : jsstr;
  k_source : jsstr
}.

(** The request body after [JSON.parse]; a parse failure leaves [{}]. *)
Record Body := {
  b_query : option jsval;
  b_question : option jsval
}.

Definition empty_body : Body := {| b_query := None; b_question := None |}.

Definition parse_body (parsed : option Body) : Body :=
  match parsed with Some b => b | None => empty_body end.

(** The JSON response; [sources] and [error] are absent in some branches.
    Every branch answers with HTTP [status] 200. *)
Record Response := {
  status : Z;
  success : bool;
  context : jsstr;
  sources : option (list KnowledgeItem);
  error : option jsstr
}.

(** Outgoing network calls, in the order they are made. *)
Inductive NetCall :=
| CallEmbed (model : jsstr) (input : jsstr)
| CallQuery (vector : list Q) (topK : nat) (includeMetadata : bool).

(** The double-precision literal [0.1]: 0x3FB999999999999A. *)
Definition threshold : Q := 3602879701896397 # 36028797018963968.

Definition Qltb (x y : Q) : bool := negb (Qle_bool y x).

(** [match.score || 0] *)
Definition score_of (m : QueryMatch) : Q :=
  match m_score m with Some q => q | None => 0 end.

(** The [searchResults.matches.map(...)] of step 3. *)
Definition to_item (m : QueryMatch) : KnowledgeItem := {|
  k_score := score_of m;
  k_text := or_str (m_text m) [];
  k_source := or_str (m_source m) (of_ascii "unknown")
|}.

(** [item.score > 0.1] *)
Definition passes (it : KnowledgeItem) : bool := Qltb threshold (k_score it).

(** The marker [\n\n【参考情報${index + 1}】: ] *)
Definition marker (index : nat) : jsstr :=
  [10; 10; 12304; 21442; 32771; 24773; 22577]%N ++ show_nat (S index)
  ++ [12305; 58; 32]%N.

Fixpoint render_from (index : nat) (l : list KnowledgeItem) : list jsstr :=
  match l with
  | [] => []
  | it :: r => (marker index ++ k_text it) :: render_from (S index) r
  end.

(** Step 4: [filter(...).map(...).join('\n')] *)
Definition build_context (items : list KnowledgeItem) : jsstr :=
  join [10%N] (render_from 0 (filter passes items)).

Definition ok_response (ctx : jsstr) (items : list KnowledgeItem) : Response :=
  {| status := 200; success := true; context := slice ctx 0 500;
     sources := Some items; error := None |}.

(** The [catch] block and the short-circuit branches. *)
Definition fail_response (err : option jsstr) : Response :=
  {| status := 200; success := false; context := []; sources := None;
     error := err |}.

Definition type_error : jsstr := of_ascii "TypeError".

(** [body.query || body.question || ''] *)
Definition query_of (parsed : option Body) : jsval :=
  let body := parse_body parsed in
  or_val (b_query body) (or_val (b_question body) (JStr [])).

Definition embed_model : jsstr := of_ascii "text-embedding-3-small".

(** Matches ordered by descending score, as the vector store returns them. *)
Definition desc_match (a b : QueryMatch) : Prop := score_of b <= score_of a.
Definition desc_item (a b : KnowledgeItem) : Prop := k_score b <= k_score a.

Section Handler.

(** The two external services: the embedding API ([data] list, or a thrown
    error with its message) and the vector-store query. *)
Variable embeddings_create : jsstr -> sum jsstr (list (list Q)).
Variable index_query : list Q -> nat -> bool -> sum jsstr (list QueryMatch).

(** Steps 1-5 once the query is known to be non-blank. *)
Definition search (query : jsstr) : Response * list NetCall :=
  let c1 := [CallEmbed embed_model query] in
  match embeddings_create query with
  | inl e => (fail_response (Some e), c1)
  | inr data =>
      match data with
      | [] => (fail_response (Some type_error), c1)
      | queryVector :: _ =>
          let c2 := c1 ++ [CallQuery queryVector 3 true] in
          match index_query queryVector 3 true with
          | inl e => (fail_response (Some e), c2)
          | inr matches =>
              let knowledgeItems := map to_item matches in
              (ok_response (build_context knowledgeItems) knowledgeItems, c2)
          end
      end
  end.

(** [POST]: [keys] tells whether both API keys are configured. *)
Definition POST (keys : bool) (parsed : option Body) : Response * list NetCall :=
  if negb keys then (fail_response (Some (of_ascii "API keys not configured")), [])
  else
    match query_of parsed with
    | JOther _ => (fail_response (Some type_error), [])
    | JStr query =>
        if Nat.eqb (length (trim query)) 0 then (fail_response None, [])
        else search query
    end.

End Handler.

End Route.

(** ** The chunker ([splitText] of the ingestion script)

    The [while] loop is run with a fuel bound: [None] means the fuel ran
    out before the loop exited, so a call that returns [None] for every
    fuel never returns. *)
Module Chunk.

Fixpoint split_loop (fuel : nat) (text : jsstr) (size overlap i : Z)
    (chunks : list jsstr) : option (list jsstr) :=
  match fuel with
  | O => None
  | S fuel' =>
      if (i <? Z.of_nat (length text))%Z then
        let chunk := trim (slice text i (i + size)) in
        let chunks' := if Nat.eqb (length chunk) 0 then chunks
                       else chunks ++ [chunk] in
        split_loop fuel' text size overlap (i + (size - overlap)) chunks'
      else Some chunks
  end.

(** [splitText(text, size, overlap)] with [fuel] loop iterations allowed. *)
Definition splitText (fuel : nat) (text : jsstr) (size overlap : Z)
    : option (list jsstr) :=
  split_loop fuel text size overlap 0 [].

(** The call returns [r]. *)
Definition returns (text : jsstr) (size overlap : Z) (r : list jsstr) : Prop :=
  exists fuel, splitText fuel text size overlap = Some r.

(** The call never returns. *)
Definition diverges (text : jsstr) (size overlap : Z) : Prop :=
  forall fuel, splitText fuel text size overlap = None.

End Chunk.

(** ** The client-side [searchKnowledge]

    Both copies ([InteractiveAvatar] and [TextInput]) return [data.context]
    when [data.success && data.context], and [''] otherwise, including when
    [fetch] or [response.json()] throws. *)
Module Client.

(** What [fetch] + [response.json()] produced: [None] when either threw,
    otherwise the body's [success] and [context]. *)
Definition FetchOutcome := option (bool * jsstr).

Definition searchKnowledge (o : FetchOutcome) : jsstr :=
  match o with
  | Some (true, (_ :: _) as ctx) => ctx
  | _ => []
  end.

End Client.

(** ** Text-mode turns ([TextInput], [handleSend]) *)
Module TextTurn.

Inductive TaskType := TALK | REPEAT.
Inductive TaskMode := SYNC | ASYNC.

(** Calls to the [useTextChat] senders. *)
Inductive Sent :=
| SendMessage (mode : TaskMode) (text : jsstr)
| RepeatMessage (mode : TaskMode) (text : jsstr).

Record Outcome := {
  queries : list jsstr;   (** [searchKnowledge] calls *)
  sent : list Sent        (** messages handed to the avatar *)
}.

(** [\n\n以下の情報を参考にしてください:\n] *)
Definition reference_label : jsstr :=
  [10; 10; 20197; 19979; 12398; 24773; 22577; 12434; 21442; 32771; 12395;
   12375; 12390; 12367; 12384; 12373; 12356; 58; 10]%N.

Definition send (taskType : TaskType) (taskMode : TaskMode) (m : jsstr) : Sent :=
  match taskType with
  | TALK => SendMessage taskMode m
  | REPEAT => RepeatMessage taskMode m
  end.

(** [handleSend]; [fo] is the result of the knowledge-search request.
    [searchKnowledge] catches its own errors, so the [try] block completes
    and its [catch] branch is not reached. *)
Definition handleSend (message : jsstr) (taskType : TaskType)
    (taskMode : TaskMode) (fo : Client.FetchOutcome) : Outcome :=
  if Nat.eqb (length (trim message)) 0 then {| queries := []; sent := [] |}
  else
    match taskType with
    | TALK =>
        let knowledgeContext := Client.searchKnowledge fo in
        let finalMessage :=
          match knowledgeContext with
          | [] => message
          | _ => message ++ reference_label ++ knowledgeContext
          end in
        {| queries := [message]; sent := [send TALK taskMode finalMessage] |}
    | REPEAT => {| queries := []; sent := [send REPEAT taskMode message] |}
    end.

(** Truthiness of a string: non-empty. *)
Definition filled (m : jsstr) : bool := match m with _ :: _ => true | [] => false end.

(** The [startListening] / [stopListening] effect of [TextInput]. *)
Inductive ListenAction := StartListening | StopListening.

(** One run of the effect, with [previousText] from [usePrevious(message)]
    ([None] for [undefined]). *)
Definition listening_effect (previousText : option jsstr) (message : jsstr)
    : option ListenAction :=
  let prev := match previousText with Some (_ :: _) => true | _ => false end in
  let cur := match message with _ :: _ => true | [] => false end in
  if negb prev && cur then Some StartListening
  else if prev && negb cur then Some StopListening
  else None.

(** The effect over the successive values of [message], one per render;
    [previousText] is the value of the render before ([undefined] at the
    first one). *)
Fixpoint listening_run (previousText : option jsstr) (messages : list jsstr)
    : list ListenAction :=
  match messages with
  | [] => []
  | m :: r =>
      match listening_effect previousText m with
      | Some a => a :: listening_run (Some m) r
      | None => listening_run (Some m) r
      end
  end.

(** [l] alternates between the two actions, beginning with
    [StartListening] when [start] holds and with [StopListening]
    otherwise. *)
Fixpoint alternates (start : bool) (l : list ListenAction) : bool :=
  match l with
  | [] => true
  | StartListening :: r => start && alternates false r
  | StopListening :: r => negb start && alternates true r
  end.

End TextTurn.

(** ** Voice sessions ([startSessionV2] event handlers)

    Each handler runs up to its first [await]; the [fetch] issued by
    [searchKnowledge] is recorded at that point and the rest of the handler
    is kept as a pending continuation, resumed when the request settles. *)
Module Voice.

(** Which handler is suspended on a retrieval request. *)
Inductive Handler := OnUserStop | OnUserEndMessage.

Record VState := {
  isVoice : bool;
  lastUserMessage : jsstr;             (** [lastUserMessageRef.current] *)
  pending : list (nat * Handler);      (** requests in flight *)
  next_id : nat;
  calls : list jsstr;                  (** retrieval requests, in order *)
  spoken : list jsstr                  (** [avatar.speak] texts, in order *)
}.

Definition init (voice : bool) : VState := {|
  isVoice := voice; lastUserMessage := []; pending := []; next_id := 0;
  calls := []; spoken := [] |}.

Inductive Event :=
| UserStart
| UserTalkingMessage (detail_message detail_text : option jsstr)
| UserStop
| UserEndMessage (detail_message detail_text message : option jsstr)
| SearchSettled (id : nat) (outcome : Client.FetchOutcome).

(** [`\n\n【参考情報】: ${knowledgeContext}`] *)
Definition speak_text (ctx : jsstr) : jsstr :=
  [10; 10; 12304; 21442; 32771; 24773; 22577; 12305; 58; 32]%N ++ ctx.

(** Start [searchKnowledge(q)] from handler [h]. *)
Definition start_search (s : VState) (q : jsstr) (h : Handler) : VState := {|
  isVoice := isVoice s; lastUserMessage := lastUserMessage s;
  pending := pending s ++ [(next_id s, h)]; next_id := S (next_id s);
  calls := calls s ++ [q]; spoken := spoken s |}.

Definition set_last (s : VState) (m : jsstr) : VState := {|
  isVoice := isVoice s; lastUserMessage := m; pending := pending s;
  next_id := next_id s; calls := calls s; spoken := spoken s |}.

Fixpoint find_pending (id : nat) (l : list (nat * Handler)) : option Handler :=
  match l with
  | [] => None
  | (k, h) :: r => if Nat.eqb k id then Some h else find_pending id r
  end.

Definition remove_pending (id : nat) (l : list (nat * Handler))
    : list (nat * Handler) :=
  filter (fun p => negb (Nat.eqb (fst p) id)) l.

(** Resume handler [h] with the retrieved context. Only the USER_STOP
    handler uses it: a non-empty context is spoken. *)
Definition resume (s : VState) (id : nat) (h : Handler) (ctx : jsstr) : VState :=
  let spoken' :=
    match h, ctx with
    | OnUserStop, _ :: _ => spoken s ++ [speak_text ctx]
    | _, _ => spoken s
    end in
  {| isVoice := isVoice s; lastUserMessage := lastUserMessage s;
     pending := remove_pending id (pending s); next_id := next_id s;
     calls := calls s; spoken := spoken' |}.

Definition step (s : VState) (e : Event) : VState :=
  match e with
  | UserStart => set_last s []
  | UserTalkingMessage dm dt =>
      match or_str dm (or_str dt []) with
      | [] => s
      | message => set_last s message
      end
  | UserStop =>
      if isVoice s then
        match lastUserMessage s with
        | [] => s
        | userMessage => start_search s userMessage OnUserStop
        end
      else s
  | UserEndMessage dm dt em =>
      let userMessage :=
        or_str dm (or_str dt (or_str em (or_str (Some (lastUserMessage s)) []))) in
      match userMessage with
      | _ :: _ => if isVoice s then start_search s userMessage OnUserEndMessage
                  else s
      | [] => s
      end
  | SearchSettled id o =>
      match find_pending id (pending s) with
      | Some h => resume s id h (Client.searchKnowledge o)
      | None => s
      end
  end.

Definition run (s : VState) (es : list Event) : VState := fold_left step es s.

(** A voice turn: the user speaks, the transcript arrives, the utterance
    stops. *)
Definition turn (m : string) : list Event :=
  [UserStart; UserTalkingMessage (Some (of_ascii m)) None; UserStop].

(** The settlement of request [id]. *)
Definition settles_request (id : nat) (e : Event) : bool :=
  match e with SearchSettled k _ => Nat.eqb k id | _ => false end.

End Voice.

(** ** Node's [path.extname] (POSIX)

    The loop of Node's [path.extname], scanning the path from its last
    code unit down to its first. *)
Module Path.

Record ExtSt := mkExt {
  startDot : Z;
  startPart : Z;
  endi : Z;                (** [end] *)
  matchedSlash : bool;
  preDotState : Z
}.

Definition ext_init : ExtSt := mkExt (-1) 0 (-1) true 0.

(** [cs] lists the code units at indices [i], [i - 1], ..., [0]. *)
Fixpoint ext_loop (cs : jsstr) (i : Z) (st : ExtSt) : ExtSt :=
  match cs with
  | [] => st
  | code :: r =>
      if (code =? 47)%N then
        (* '/' *)
        if negb (matchedSlash st) then
          mkExt (startDot st) (i + 1) (endi st) (matchedSlash st) (preDotState st)
        else ext_loop r (i - 1) st
      else
        let st1 :=
          if (endi st =? -1)%Z then
            mkExt (startDot st) (startPart st) (i + 1) false (preDotState st)
          else st in
        let st2 :=
          if (code =? 46)%N then
            (* '.' *)
            if (startDot st1 =? -1)%Z then
              mkExt i (startPart st1) (endi st1) (matchedSlash st1) (preDotState st1)
            else if negb (preDotState st1 =? 1)%Z then
              mkExt (startDot st1) (startPart st1) (endi st1) (matchedSlash st1) 1
            else st1
          else if negb (startDot st1 =? -1)%Z then
            mkExt (startDot st1) (startPart st1) (endi st1) (matchedSlash st1) (-1)
          else st1 in
        ext_loop r (i - 1) st2
  end.

Definition extname (p : jsstr) : jsstr :=
  let st := ext_loop (rev p) (Z.of_nat (length p) - 1) ext_init in
  if (startDot st =? -1)%Z || (endi st =? -1)%Z || (preDotState st =? 0)%Z
     || ((preDotState st =? 1)%Z && (startDot st =? endi st - 1)%Z
         && (startDot st =? startPart st + 1)%Z)
  then []
  else slice p (startDot st) (endi st).

(** [s] does not contain the code unit [c]. *)
Definition lacks (c : N) (s : jsstr) : bool := forallb (fun x => negb (x =? c)%N) s.

End Path.

(** ** The ingestion script ([setup-pinecone-data copy.js]) *)
Module Ingest.
Import Path.

Definition jsstr_eqb (a b : jsstr) : bool :=
  if list_eq_dec N.eq_dec a b then true else false.

(** [s.toLowerCase()] on ASCII letters; the only other code points whose
    lower case contains an ASCII letter (U+0130, U+212A) cannot yield one of
    the extensions compared against below, so they are left unchanged. *)
Definition to_lower (c : N) : N :=
  if ((65 <=? c)%N && (c <=? 90)%N) then (c + 32)%N else c.

Definition lower (s : jsstr) : jsstr := map to_lower s.

Definition supported_exts : list jsstr :=
  [of_ascii ".pdf"; of_ascii ".doc"; of_ascii ".docx"; of_ascii ".txt"].

(** The [readdirSync(...).filter(...)] predicate of [main]. *)
Definition supported_file (f : jsstr) : bool :=
  existsb (jsstr_eqb (lower (extname f))) supported_exts.

(** [path.join(DOCUMENTS_FOLDER, file)]: [./documents] normalises to
    [documents]. *)
Definition filePath (file : jsstr) : jsstr := of_ascii "documents/" ++ file.

Inductive Extractor := PDF | Word | TXT.

(** The branches of [extractTextFromFile]. *)
Definition extractor_for (path : jsstr) : option Extractor :=
  let ext := lower (extname path) in
  if jsstr_eqb ext (of_ascii ".pdf") then Some PDF
  else if jsstr_eqb ext (of_ascii ".doc") || jsstr_eqb ext (of_ascii ".docx")
  then Some Word
  else if jsstr_eqb ext (of_ascii ".txt") then Some TXT
  else None.

(** [path.parse(file).name] for a directory entry (no '/'): the name
    without its extension. *)
Definition parse_name (file : jsstr) : jsstr :=
  firstn (length file - length (extname file)) file.

Definition CHUNK_SIZE : Z := 100.
Definition CHUNK_OVERLAP : Z := 20.

(** [splitText(text, CHUNK_SIZE, CHUNK_OVERLAP)]; the loop runs at most
    [length text + 1] times, so the [None] branch is never taken. *)
Definition chunks_of (text : jsstr) : list jsstr :=
  match Chunk.splitText (S (length text)) text CHUNK_SIZE CHUNK_OVERLAP with
  | Some r => r
  | None => []
  end.

Record VectorRecord := {
  r_id : jsstr;
  r_values : list Q;
  r_source : jsstr;   (** [metadata.source] *)
  r_text : jsstr      (** [metadata.text] *)
}.

Record MainRun := {
  embedded : list jsstr;                 (** [embed] calls, in order *)
  upserted : list (list VectorRecord);   (** [index.upsert] calls, in order *)
  result : sum jsstr nat                 (** rejection, or [vectors.length] *)
}.

Section Main.

(** Each extractor catches its own errors and answers [null] ([None]). *)
Variable extract : Extractor -> jsstr -> option jsstr.
(** [embed(text)]: [res.data[0].embedding], or the error it throws. *)
Variable embed : jsstr -> sum jsstr (list Q).
Variable upsert : list VectorRecord -> sum jsstr unit.

Definition extractTextFromFile (path : jsstr) : option jsstr :=
  match extractor_for path with
  | Some x => extract x path
  | None => None
  end.

(** The inner [for] loop of [main] over the chunks of one file. *)
Fixpoint embed_chunks (name file : jsstr) (i : nat) (chunks : list jsstr)
    : list jsstr * sum jsstr (list VectorRecord) :=
  match chunks with
  | [] => ([], inr [])
  | c :: r =>
      match embed c with
      | inl e => ([c], inl e)
      | inr embedding =>
          let rec := {| r_id := name ++ [95%N] ++ show_nat (S i);
                        r_values := embedding; r_source := file; r_text := c |} in
          let '(calls, res) := embed_chunks name file (S i) r in
          (c :: calls, match res with
                       | inl e => inl e
                       | inr rs => inr (rec :: rs)
                       end)
      end
  end.

(** The outer [for] loop of [main] over the files. *)
Fixpoint process (files : list jsstr) : list jsstr * sum jsstr (list VectorRecord) :=
  match files with
  | [] => ([], inr [])
  | f :: fs =>
      match extractTextFromFile (filePath f) with
      | None | Some [] => process fs       (* if (!text) continue; *)
      | Some text =>
          let '(c1, r1) := embed_chunks (parse_name f) f 0 (chunks_of text) in
          match r1 with
          | inl e => (c1, inl e)
          | inr rs1 =>
              let '(c2, r2) := process fs in
              (c1 ++ c2, match r2 with
                         | inl e => inl e
                         | inr rs2 => inr (rs1 ++ rs2)
                         end)
          end
      end
  end.

(** [for (let i = 0; i < vectors.length; i += 100)
       await index.upsert(vectors.slice(i, i + 100));]
    run with [fuel] iterations; [None] when the fuel runs out. *)
Fixpoint upsert_loop (fuel : nat) (vectors : list VectorRecord) (i : nat)
    : option (list (list VectorRecord) * sum jsstr unit) :=
  match fuel with
  | O => None
  | S fuel' =>
      if Nat.ltb i (length vectors) then
        let batch := firstn 100 (skipn i vectors) in
        match upsert batch with
        | inl e => Some ([batch], inl e)
        | inr _ =>
            match upsert_loop fuel' vectors (i + 100) with
            | Some (bs, r) => Some (batch :: bs, r)
            | None => None
            end
        end
      else Some ([], inr tt)
  end.

(** [main] after [setupIndex()], on the directory entries [entries]. *)
Definition main (entries : list jsstr) : option MainRun :=
  let files := filter supported_file entries in
  let '(calls, pr) := process files in
  match pr with
  | inl e => Some {| embedded := calls; upserted := []; result := inl e |}
  | inr vectors =>
      match upsert_loop (S (length vectors)) vectors 0 with
      | None => None
      | Some (bs, r) =>
          Some {| embedded := calls; upserted := bs;
                  result := match r with
                            | inl e => inl e
                            | inr _ => inr (length vectors)
                            end |}
      end
  end.

End Main.

(** What [main] reads from one directory entry when every call succeeds:
    the chunks of its text (none when the extractor answers [null]) and
    one record per chunk, numbered from 1 after the entry's base name;
    [vec] gives the embedding of a chunk. *)
Definition file_chunks (extract : Extractor -> jsstr -> option jsstr)
    (f : jsstr) : list jsstr :=
  match extractTextFromFile extract (filePath f) with
  | Some text => chunks_of text
  | None => []
  end.

Definition record_of (vec : jsstr -> list Q) (name file : jsstr)
    (ic : nat * jsstr) : VectorRecord :=
  {| r_id := name ++ [95%N] ++ show_nat (S (fst ic));
     r_values := vec (snd ic); r_source := file; r_text := snd ic |}.

Definition file_records (extract : Extractor -> jsstr -> option jsstr)
    (vec : jsstr -> list Q) (f : jsstr) : list VectorRecord :=
  let cs := file_chunks extract f in
  map (record_of vec (parse_name f) f) (combine (seq 0 (length cs)) cs).

(** A batch sent to [index.upsert]. *)
Definition batch_ok (b : list VectorRecord) : Prop := (1 <= length b <= 100)%nat.

(** A chunk as [splitText] keeps it, for a window of [size]. *)
Definition good_chunk (text : jsstr) (size : Z) (c : jsstr) : Prop :=
  c <> [] /\ (length c <= Z.to_nat size)%nat /\ trim c = c /\
  exists p q, text = p ++ c ++ q.

End Ingest.

(** ** [uploadDocuments] of the TypeScript setup script *)
Module Upload.
Import Ingest.

Record Document := {
  d_id : jsstr;
  d_text : jsstr;
  d_source : jsstr
}.

Record UploadRun := {
  u_embedded : list jsstr;                 (** [embedText] calls, in order *)
  u_upserted : list (list VectorRecord);   (** [index.upsert] calls *)
  u_result : sum jsstr unit                (** the error rethrown, or done *)
}.

Section Upload.

Variable embedText : jsstr -> sum jsstr (list Q).
Variable upsert : list VectorRecord -> sum jsstr unit.

(** The [for (const doc of SAMPLE_DOCUMENTS)] loop. *)
Fixpoint embed_docs (docs : list Document) : list jsstr * sum jsstr (list VectorRecord) :=
  match docs with
  | [] => ([], inr [])
  | d :: r =>
      match embedText (d_text d) with
      | inl e => ([d_text d], inl e)
      | inr vector =>
          let rec := {| r_id := d_id d; r_values := vector;
                        r_source := d_source d; r_text := d_text d |} in
          let '(calls, res) := embed_docs r in
          (d_text d :: calls, match res with
                              | inl e => inl e
                              | inr rs => inr (rec :: rs)
                              end)
      end
  end.

(** [uploadDocuments(index)] over the documents it iterates. *)
Definition uploadDocuments (docs : list Document) : UploadRun :=
  let '(calls, res) := embed_docs docs in
  match res with
  | inl e => {| u_embedded := calls; u_upserted := []; u_result := inl e |}
  | inr vectors =>
      {| u_embedded := calls; u_upserted := [vectors]; u_result := upsert vectors |}
  end.

End Upload.

End Upload.

(** ** Concrete inputs used by the examples below *)
Module Demo.
Import Route.

Definition body_of (q : string) : option Body :=
  Some {| b_query := Some (JStr (of_ascii q)); b_question := None |}.

(** An embedding service answering with one vector, and one that fails. *)
Definition embed_ok : jsstr -> sum jsstr (list (list Q)) :=
  fun _ => inr [[1 # 2; 1 # 3]].
Definition embed_down : jsstr -> sum jsstr (list (list Q)) :=
  fun _ => inl (of_ascii "Request timed out").

(** Three matches: one relevant, one below the threshold, one with no
    score and no metadata. *)
Definition matches3 : list QueryMatch := [
  {| m_score := Some (82 # 100); m_text := Some (of_ascii "X is ...");
     m_source := Some (of_ascii "x.txt") |};
  {| m_score := Some (5 # 100); m_text := Some (of_ascii "noise");
     m_source := None |};
  {| m_score := None; m_text := None; m_source := None |} ].

Definition store_ok : list Q -> nat -> bool -> sum jsstr (list QueryMatch) :=
  fun _ _ _ => inr matches3.
Definition store_down : list Q -> nat -> bool -> sum jsstr (list QueryMatch) :=
  fun _ _ _ => inl (of_ascii "503 Service Unavailable").

End Demo.

(** Inputs of the ingestion examples. *)
Module IngestDemo.
Import Ingest.

Definition w_extract (x : Extractor) (p : jsstr) : option jsstr :=
  Some (of_ascii "Opening hours are nine to five.").
Definition w_vec (c : jsstr) : list Q := [inject_Z (Z.of_nat (length c))].
Definition w_embed (c : jsstr) : sum jsstr (list Q) := inr (w_vec c).
Definition w_upsert (b : list VectorRecord) : sum jsstr unit := inr tt.
Definition w_entries : list jsstr :=
  [of_ascii "faq.PDF"; of_ascii "notes.md"; of_ascii "hours.txt"].

Definition w_embed_down (c : jsstr) : sum jsstr (list Q) :=
  if Nat.ltb (length c) 20 then inr (w_vec c) else inl (of_ascii "429").

Definition w_upsert_down (b : list VectorRecord) : sum jsstr unit :=
  inl (of_ascii "503").
Definition w_many_entries : list jsstr :=
  [of_ascii "hours.txt"; of_ascii "faq.pdf"].
Definition w_run_down : MainRun :=
  match main w_extract w_embed w_upsert_down w_many_entries with
  | Some r => r
  | None => {| embedded := []; upserted := []; result := inr 0%nat |}
  end.

Definition w_short_doc : Upload.Document :=
  {| Upload.d_id := of_ascii "doc_001"; Upload.d_text := of_ascii "Short note.";
     Upload.d_source := of_ascii "notes" |}.
Definition w_long_doc : Upload.Document :=
  {| Upload.d_id := of_ascii "doc_002"; Upload.d_text := of_ascii "A much longer paragraph.";
     Upload.d_source := of_ascii "manual" |}.
Definition w_docs : list Upload.Document := [w_short_doc; w_long_doc].

End IngestDemo.

(** * Properties *)

(** ** Strings *)
Module JsFacts.

Lemma drop_ws_all (s : jsstr) : forallb is_js_ws s = true -> drop_ws s = [].
Proof.
  induction s as [|c r IH]; simpl; [reflexivity|].
  intros H. apply andb_prop in H as [Hc Hr]. rewrite Hc. auto.
Qed.

Lemma trim_blank (s : jsstr) : forallb is_js_ws s = true -> trim s = [].
Proof. intros H. unfold trim. rewrite (drop_ws_all s H). reflexivity. Qed.

Lemma slice_prefix (s : jsstr) (n : nat) :
  slice s 0 (Z.of_nat n) = firstn n s.
Proof.
  unfold slice, rel_index. simpl.
  destruct (Z.of_nat n <? 0)%Z eqn:E; [apply Z.ltb_lt in E; lia|].
  replace (Z.min (Z.of_nat n) (Z.of_nat (length s)) - Z.min 0 (Z.of_nat (length s)))%Z
    with (Z.of_nat (Nat.min n (length s))) by lia.
  rewrite Nat2Z.id.
  replace (Z.to_nat (Z.min 0 (Z.of_nat (length s)))) with 0%nat by lia.
  rewrite skipn_0.
  destruct (Nat.le_ge_cases n (length s)) as [Hle|Hge].
  - rewrite Nat.min_l by exact Hle. reflexivity.
  - rewrite Nat.min_r by exact Hge.
    rewrite firstn_all, firstn_all2 by exact Hge. reflexivity.
Qed.

Lemma slice_500_length (s : jsstr) : (length (slice s 0 500) <= 500)%nat.
Proof.
  change 500%Z with (Z.of_nat 500). rewrite slice_prefix.
  rewrite length_firstn. lia.
Qed.

End JsFacts.

(** ** The knowledge-search endpoint *)
Module RouteFacts.
Import Route.

Ltac post_cases :=
  repeat match goal with
  | |- context [match ?x with _ => _ end] => destruct x
  end.

Lemma POST_status emb idx keys parsed :
  status (fst (POST emb idx keys parsed)) = 200%Z.
Proof. unfold POST, search. post_cases; reflexivity. Qed.

Lemma POST_failure_empty emb idx keys parsed :
  success (fst (POST emb idx keys parsed)) = false ->
  context (fst (POST emb idx keys parsed)) = [].
Proof. unfold POST, search. post_cases; simpl; congruence. Qed.

(** Shape of a successful answer. *)
Lemma POST_success emb idx keys parsed :
  success (fst (POST emb idx keys parsed)) = true ->
  exists q v rest matches,
    keys = true /\ query_of parsed = JStr q /\ length (trim q) <> 0%nat /\
    emb q = inr (v :: rest) /\ idx v 3%nat true = inr matches /\
    POST emb idx keys parsed =
      (ok_response (build_context (map to_item matches)) (map to_item matches),
       [CallEmbed embed_model q; CallQuery v 3%nat true]).
Proof.
  unfold POST. destruct keys; simpl; [|discriminate].
  destruct (query_of parsed) as [q|b] eqn:Hq; [|discriminate].
  destruct (Nat.eqb (length (trim q)) 0) eqn:Hb; [discriminate|].
  unfold search. destruct (emb q) as [e|data] eqn:He; [discriminate|].
  destruct data as [|v rest]; [discriminate|].
  destruct (idx v 3%nat true) as [e|ms] eqn:Hi; [discriminate|].
  intros _. exists q, v, rest, ms. apply Nat.eqb_neq in Hb.
  repeat split; auto.
Qed.

Lemma passes_below (x : KnowledgeItem) :
  k_score x <= threshold -> passes x = false.
Proof.
  intros H. unfold passes, Qltb. apply Qle_bool_iff in H. rewrite H. reflexivity.
Qed.

Lemma passes_above (x : KnowledgeItem) :
  passes x = true -> threshold < k_score x.
Proof.
  unfold passes, Qltb. intros H. apply Qnot_le_lt. intros Hle.
  apply Qle_bool_iff in Hle. rewrite Hle in H. discriminate.
Qed.

Lemma StronglySorted_filter {A} (R : A -> A -> Prop) (f : A -> bool) l :
  StronglySorted R l -> StronglySorted R (filter f l).
Proof.
  induction l as [|a l IH]; simpl; intros H; [constructor|].
  apply StronglySorted_inv in H as [Hl Ha].
  destruct (f a); [|auto].
  constructor; [auto|].
  rewrite Forall_forall in *. intros y Hy. apply filter_In in Hy. apply Ha, Hy.
Qed.

Lemma sorted_items (ms : list QueryMatch) :
  StronglySorted desc_match ms -> StronglySorted desc_item (map to_item ms).
Proof.
  induction ms as [|m ms IH]; simpl; intros H; [constructor|].
  apply StronglySorted_inv in H as [Hl Hm].
  constructor; [auto|].
  apply Forall_map. eapply Forall_impl; [|exact Hm].
  intros b Hb. exact Hb.
Qed.

Example end_to_end :
  fst (POST Demo.embed_ok Demo.store_ok true (Demo.body_of "What is X?")) =
  ok_response (marker 0 ++ of_ascii "X is ...") (map to_item Demo.matches3).
Proof. vm_compute. reflexivity. Qed.

(** C3: for an empty or whitespace-only query, [POST] answers with
    [success = false] and [context = ""] (status 200), makes no network
    call at all, and, once the API keys are configured, carries no [error]
    field: a normal answer, not an error. *)
Theorem blank_query_no_network emb idx (keys : bool) (parsed : option Body)
    (q : jsstr) (Hq : query_of parsed = JStr q)
    (Hblank : forallb is_js_ws q = true) :
  let '(r, calls) := POST emb idx keys parsed in
  success r = false /\ context r = [] /\ status r = 200%Z /\ calls = [] /\
  (keys = true -> error r = None).
Proof.
  unfold POST. destruct keys; simpl.
  - rewrite Hq, (JsFacts.trim_blank q Hblank). simpl. repeat split.
  - repeat split. discriminate.
Qed.

Lemma blank_query_no_network_witness :
  query_of (Demo.body_of "   ") = JStr (of_ascii "   ") /\
  forallb is_js_ws (of_ascii "   ") = true /\
  POST Demo.embed_ok Demo.store_ok true (Demo.body_of "   ") = (fail_response None, []).
Proof.
  split; [reflexivity|]. split; [reflexivity|].
  pose proof (blank_query_no_network Demo.embed_ok Demo.store_ok true
                (Demo.body_of "   ") (of_ascii "   ") eq_refl eq_refl) as H.
  vm_compute in H |- *. reflexivity.
Defined.

(** C4: when the embedding service fails (a thrown error or no embedding in
    its answer) or the vector store fails, [POST] still answers with HTTP
    status 200, [success = false] and [context = ""]; the failure is not
    propagated. *)
Theorem internal_failure_is_soft emb idx (parsed : option Body) (q : jsstr)
    (Hq : query_of parsed = JStr q)
    (Hfail : (exists e, emb q = inl e) \/ emb q = inr [] \/
             (exists v rest e, emb q = inr (v :: rest) /\ idx v 3%nat true = inl e)) :
  let r := fst (POST emb idx true parsed) in
  success r = false /\ context r = [] /\ status r = 200%Z.
Proof.
  simpl. rewrite POST_status.
  assert (Hs : success (fst (POST emb idx true parsed)) = false).
  { destruct (success (fst (POST emb idx true parsed))) eqn:E; [|reflexivity].
    apply POST_success in E as (q' & v & rest & ms & _ & Hq' & _ & He & Hi & _).
    rewrite Hq in Hq'. injection Hq' as <-.
    destruct Hfail as [[e He']|[He'|(v' & rest' & e & He' & Hi')]];
      rewrite He in He'; try discriminate.
    injection He' as <- <-. congruence. }
  split; [exact Hs|]. split; [|reflexivity].
  apply POST_failure_empty, Hs.
Qed.

Lemma internal_failure_is_soft_witness :
  success (fst (POST Demo.embed_down Demo.store_ok true (Demo.body_of "What is X?"))) = false /\
  success (fst (POST Demo.embed_ok Demo.store_down true (Demo.body_of "What is X?"))) = false.
Proof.
  split.
  - apply (internal_failure_is_soft Demo.embed_down Demo.store_ok
             (Demo.body_of "What is X?") (of_ascii "What is X?") eq_refl).
    left. eexists. reflexivity.
  - apply (internal_failure_is_soft Demo.embed_ok Demo.store_down
             (Demo.body_of "What is X?") (of_ascii "What is X?") eq_refl).
    right. right. do 3 eexists. split; reflexivity.
Defined.

(** C5: for every request, the answered [context] has at most 500 UTF-16
    code units; on success it is the first 500 code units of the
    concatenated match text (a hard cutoff). *)
Theorem context_at_most_500 emb idx (keys : bool) (parsed : option Body) :
  let r := fst (POST emb idx keys parsed) in
  (length (context r) <= 500)%nat /\
  (success r = true ->
   exists items, sources r = Some items /\
                 context r = firstn 500 (build_context items)).
Proof.
  simpl. split.
  - destruct (success (fst (POST emb idx keys parsed))) eqn:E.
    + apply POST_success in E as (q & v & rest & ms & _ & _ & _ & _ & _ & Hp).
      rewrite Hp. apply JsFacts.slice_500_length.
    + rewrite (POST_failure_empty _ _ _ _ E). simpl. lia.
  - intros E.
    apply POST_success in E as (q & v & rest & ms & _ & _ & _ & _ & _ & Hp).
    rewrite Hp. exists (map to_item ms). split; [reflexivity|].
    simpl. change 500%Z with (Z.of_nat 500). apply JsFacts.slice_prefix.
Qed.

(** C6: in a successful answer the context is built only from the matches
    whose score passes the threshold [0.1]: it is the (truncated) join of
    the passing items, each prefixed by its positional marker 1, 2, ...;
    every item so rendered scores above [0.1]; inserting or removing a
    match scoring at or below [0.1] leaves the context unchanged; and when
    the store returns its matches by descending score, the rendered items
    are in descending-score order. *)
Theorem context_from_passing_matches emb idx (keys : bool)
    (parsed : option Body)
    (Hs : success (fst (POST emb idx keys parsed)) = true) :
  exists v matches,
    idx v 3%nat true = inr matches /\
    (let items := map to_item matches in
    context (fst (POST emb idx keys parsed)) =
      slice (join [10%N] (render_from 0 (filter passes items))) 0 500 /\
    Forall (fun it => threshold < k_score it) (filter passes items) /\
    (forall l1 x l2, k_score x <= threshold ->
       build_context (l1 ++ x :: l2) = build_context (l1 ++ l2)) /\
    (StronglySorted desc_match matches ->
       StronglySorted desc_item (filter passes items))).
Proof.
  apply POST_success in Hs as (q & v & rest & ms & _ & _ & _ & _ & Hi & Hp).
  exists v, ms. split; [exact Hi|]. rewrite Hp. simpl.
  split; [reflexivity|]. split; [|split].
  - apply Forall_forall. intros it Hit. apply filter_In in Hit.
    apply passes_above, Hit.
  - intros l1 x l2 Hx. unfold build_context.
    rewrite !filter_app. simpl. rewrite (passes_below x Hx). reflexivity.
  - intros Hsort. apply StronglySorted_filter, sorted_items, Hsort.
Qed.

Lemma context_from_passing_matches_witness :
  success (fst (POST Demo.embed_ok Demo.store_ok true (Demo.body_of "What is X?"))) = true /\
  context (fst (POST Demo.embed_ok Demo.store_ok true (Demo.body_of "What is X?"))) =
    slice (join [10%N] (render_from 0 (filter passes (map to_item Demo.matches3)))) 0 500.
Proof.
  assert (Hs : success (fst (POST Demo.embed_ok Demo.store_ok true
                               (Demo.body_of "What is X?"))) = true)
    by (vm_compute; reflexivity).
  split; [exact Hs|].
  destruct (context_from_passing_matches _ _ _ _ Hs) as (v & ms & Hi & Hc & _).
  unfold Demo.store_ok in Hi. injection Hi as <-. exact Hc.
Defined.

(** C10: in a successful answer, [sources] lists every match the store
    returned for the query (asked with [topK = 3]), in the store's order,
    whether or not it passes the threshold; a missing score becomes [0], a
    missing text [""] and a missing source ["unknown"]. *)
Theorem sources_are_all_matches emb idx (keys : bool) (parsed : option Body)
    (Hs : success (fst (POST emb idx keys parsed)) = true) :
  (exists q v matches,
     snd (POST emb idx keys parsed) = [CallEmbed embed_model q; CallQuery v 3%nat true] /\
     idx v 3%nat true = inr matches /\
     sources (fst (POST emb idx keys parsed)) = Some (map to_item matches)) /\
  (forall m, (m_score m = None -> k_score (to_item m) = 0) /\
             (m_text m = None -> k_text (to_item m) = []) /\
             (m_source m = None -> k_source (to_item m) = of_ascii "unknown")).
Proof.
  split.
  - apply POST_success in Hs as (q & v & rest & ms & _ & _ & _ & _ & Hi & Hp).
    exists q, v, ms. rewrite Hp. auto.
  - intros [s t src]. unfold to_item, score_of. simpl.
    repeat split; intros ->; reflexivity.
Qed.

Lemma sources_are_all_matches_witness :
  sources (fst (POST Demo.embed_ok Demo.store_ok true (Demo.body_of "What is X?"))) =
    Some (map to_item Demo.matches3).
Proof.
  assert (Hs : success (fst (POST Demo.embed_ok Demo.store_ok true
                               (Demo.body_of "What is X?"))) = true)
    by (vm_compute; reflexivity).
  destruct (sources_are_all_matches _ _ _ _ Hs) as [(q & v & ms & _ & Hi & Hsrc) _].
  unfold Demo.store_ok in Hi. injection Hi as <-. exact Hsrc.
Defined.

End RouteFacts.

(** ** The chunker *)
Module ChunkFacts.
Import Chunk.

Lemma split_loop_exits (text : jsstr) (size overlap : Z) :
  (0 < size - overlap)%Z ->
  forall fuel i acc,
    (Z.to_nat (Z.of_nat (length text) - i) < fuel)%nat ->
    exists r, split_loop fuel text size overlap i acc = Some r.
Proof.
  intros Hd fuel. induction fuel as [|fuel IH]; intros i acc Hf; [lia|].
  simpl. destruct (i <? Z.of_nat (length text))%Z eqn:Hi.
  - apply Z.ltb_lt in Hi. apply IH. lia.
  - eexists. reflexivity.
Qed.

Lemma split_loop_stuck (text : jsstr) (size overlap : Z) :
  (size - overlap <= 0)%Z -> text <> [] ->
  forall fuel i acc, (i <= 0)%Z -> split_loop fuel text size overlap i acc = None.
Proof.
  intros Hd Hne fuel. induction fuel as [|fuel IH]; intros i acc Hi; [reflexivity|].
  simpl. destruct text as [|c r]; [contradiction|].
  replace (i <? Z.of_nat (length (c :: r)))%Z with true.
  - apply IH. lia.
  - symmetry. apply Z.ltb_lt. simpl length. lia.
Qed.

Lemma slice_whole (text : jsstr) (size : Z) :
  (Z.of_nat (length text) <= size)%Z -> slice text 0 size = text.
Proof.
  intros H. unfold slice, rel_index. simpl.
  destruct (size <? 0)%Z eqn:E; [apply Z.ltb_lt in E; lia|].
  replace (Z.min size (Z.of_nat (length text)) - Z.min 0 (Z.of_nat (length text)))%Z
    with (Z.of_nat (length text)) by lia.
  replace (Z.to_nat (Z.min 0 (Z.of_nat (length text)))) with 0%nat by lia.
  rewrite Nat2Z.id, skipn_0. apply firstn_all.
Qed.

(** C7 (as the code has it): [splitText] validates nothing. With a positive
    stride [size - overlap] it always returns; with a non-positive stride
    and a non-empty text it never returns (no error is raised); an empty
    text returns [[]] whatever the parameters. *)
Theorem splitText_no_validation (text : jsstr) (size overlap : Z) :
  ((0 < size - overlap)%Z -> exists r, returns text size overlap r) /\
  ((size - overlap <= 0)%Z -> text <> [] -> diverges text size overlap) /\
  returns [] size overlap [].
Proof.
  split; [|split].
  - intros Hd. destruct (split_loop_exits text size overlap Hd
                           (S (Z.to_nat (Z.of_nat (length text) - 0))) 0 [])
      as [r Hr]; [lia|].
    exists r, (S (Z.to_nat (Z.of_nat (length text) - 0))). exact Hr.
  - intros Hd Hne fuel. apply split_loop_stuck; auto. lia.
  - exists 1%nat. reflexivity.
Qed.

Lemma splitText_no_validation_witness :
  returns (of_ascii "abcdefgh") 5 2 [of_ascii "abcde"; of_ascii "defgh"; of_ascii "gh"] /\
  diverges (of_ascii "ab") 5 5.
Proof.
  destruct (splitText_no_validation (of_ascii "ab") 5 5) as [_ [Hdiv _]].
  split.
  - exists 4%nat. vm_compute. reflexivity.
  - apply Hdiv; [lia|discriminate].
Defined.

(** C7, counterexample: with [size = overlap] (stride 0) the call on a
    non-empty text neither fails nor returns: it loops forever. *)
Lemma splitText_zero_stride_loops : diverges (of_ascii "ab") 5 5.
Proof.
  intros fuel. apply split_loop_stuck; [lia|discriminate|lia].
Qed.

Lemma split_short_stride (text : jsstr) (size overlap : Z) (fuel : nat)
    (Hov : (0 <= overlap)%Z) (Hlt : (overlap < size)%Z)
    (Hlen : (Z.of_nat (length text) <= size - overlap)%Z)
    (Hfuel : (2 <= fuel)%nat) :
  splitText fuel text size overlap =
    Some (if Nat.eqb (length (trim text)) 0 then [] else [trim text]).
Proof.
  destruct fuel as [|[|fuel]]; [lia|lia|].
  unfold splitText. simpl split_loop.
  destruct (0 <? Z.of_nat (length text))%Z eqn:H0.
  - rewrite ?Z.add_0_l, slice_whole by lia.
    destruct fuel as [|fuel]; simpl split_loop.
    + replace (size - overlap <? Z.of_nat (length text))%Z with false
        by (symmetry; apply Z.ltb_ge; lia).
      destruct (Nat.eqb (length (trim text)) 0); reflexivity.
    + replace (size - overlap <? Z.of_nat (length text))%Z with false
        by (symmetry; apply Z.ltb_ge; lia).
      destruct (Nat.eqb (length (trim text)) 0); reflexivity.
  - apply Z.ltb_ge in H0. destruct text; [reflexivity|simpl in H0; lia].
Qed.


Lemma slice_tail (text : jsstr) (i size : Z) :
  (0 <= i)%Z -> (Z.of_nat (length text) <= i + size)%Z ->
  slice text i (i + size) = skipn (Z.to_nat i) text.
Proof.
  intros Hi Hs. unfold slice, rel_index.
  replace (i <? 0)%Z with false by (symmetry; apply Z.ltb_ge; lia).
  replace (i + size <? 0)%Z with false by (symmetry; apply Z.ltb_ge; lia).
  rewrite (Z.min_r (i + size)) by lia.
  destruct (Z.le_gt_cases i (Z.of_nat (length text))) as [Hle|Hgt].
  - rewrite Z.min_l by exact Hle. apply firstn_all2.
    rewrite length_skipn. lia.
  - rewrite Z.min_r by lia. rewrite Z.sub_diag, Nat2Z.id. cbn [Z.to_nat firstn].
    symmetry. apply skipn_all2. lia.
Qed.

Lemma split_loop_S (fuel : nat) (text : jsstr) (size overlap i : Z) (chunks : list jsstr) :
  split_loop (S fuel) text size overlap i chunks =
    if (i <? Z.of_nat (length text))%Z then
      let chunk := trim (slice text i (i + size)) in
      let chunks' := if Nat.eqb (length chunk) 0 then chunks else chunks ++ [chunk] in
      split_loop fuel text size overlap (i + (size - overlap)) chunks'
    else Some chunks.
Proof. reflexivity. Qed.

Lemma no_start_beyond (text : jsstr) (d j : nat) :
  (length text <= j * d)%nat ->
  forall m j', (j <= j')%nat ->
  filter (fun k => Nat.ltb (k * d) (length text)) (seq j' m) = [].
Proof.
  intros Hj m. induction m as [|m IH]; intros j' Hj'; [reflexivity|].
  cbn [seq filter].
  replace (Nat.ltb (j' * d) (length text)) with false.
  - apply IH. lia.
  - symmetry. apply Nat.ltb_ge. pose proof (Nat.mul_le_mono_r j j' d Hj'). lia.
Qed.

Lemma split_loop_tails (text : jsstr) (size overlap : Z)
    (Hov : (0 <= overlap)%Z) (Hlt : (overlap < size)%Z)
    (Hs : (Z.of_nat (length text) <= size)%Z) :
  let d := Z.to_nat (size - overlap) in
  forall fuel j acc, (length text - j < fuel)%nat ->
  split_loop fuel text size overlap (Z.of_nat (j * d)) acc =
    Some (acc ++ filter (fun c => negb (Nat.eqb (length c) 0))
                  (map (fun k => trim (skipn (k * d) text))
                    (filter (fun k => Nat.ltb (k * d) (length text))
                      (seq j (S (length text) - j))))).
Proof.
  intros d fuel. induction fuel as [|fuel IH]; intros j acc Hf; [lia|].
  rewrite split_loop_S.
  destruct (Z.of_nat (j * d) <? Z.of_nat (length text))%Z eqn:E.
  - apply Z.ltb_lt in E.
    assert (Hd : (1 <= d)%nat) by (unfold d; lia).
    assert (Hj : (j < length text)%nat) by nia.
    cbv zeta. rewrite slice_tail, Nat2Z.id by lia.
    replace (Z.of_nat (j * d) + (size - overlap))%Z with (Z.of_nat (S j * d))
      by (unfold d; lia).
    rewrite IH by lia.
    replace (S (length text) - j)%nat with (S (S (length text) - S j)) by lia.
    cbn [seq filter].
    replace (Nat.ltb (j * d) (length text)) with true by (symmetry; apply Nat.ltb_lt; lia).
    cbn [map filter].
    destruct (Nat.eqb (length (trim (skipn (j * d) text))) 0); cbn [negb].
    + reflexivity.
    + rewrite <- app_assoc. reflexivity.
  - apply Z.ltb_ge in E. rewrite (no_start_beyond text d j ltac:(lia) _ j (le_n j)).
    rewrite app_nil_r. reflexivity.
Qed.

(** C8 (as the code has it): let [d = size - overlap] with valid
    [size > overlap >= 0]. A text no longer than the stride [d] gives
    exactly one chunk, the whole trimmed text, when that trimmed text is
    non-empty, and no chunk when it is empty. A text no longer than [size]
    gives, for each window start [k * d] below its length and in that
    order, the trimmed suffix of the text from [k * d], blank ones dropped:
    a text longer than the stride can thus give more than one chunk, and
    a blank tail window gives none. *)
Theorem splitText_short_text (text : jsstr) (size overlap : Z)
    (Hov : (0 <= overlap)%Z) (Hlt : (overlap < size)%Z) :
  (forall fuel, (Z.of_nat (length text) <= size - overlap)%Z -> (2 <= fuel)%nat ->
     splitText fuel text size overlap =
       Some (if Nat.eqb (length (trim text)) 0 then [] else [trim text])) /\
  (forall fuel, (Z.of_nat (length text) <= size)%Z -> (length text < fuel)%nat ->
     let d := Z.to_nat (size - overlap) in
     splitText fuel text size overlap =
       Some (filter (fun c => negb (Nat.eqb (length c) 0))
               (map (fun k => trim (skipn (k * d) text))
                 (filter (fun k => Nat.ltb (k * d) (length text))
                   (seq 0 (S (length text))))))).
Proof.
  split.
  - intros fuel Hlen Hfuel. apply split_short_stride; assumption.
  - intros fuel Hs Hfuel d.
    exact (split_loop_tails text size overlap Hov Hlt Hs fuel 0 [] ltac:(lia)).
Qed.

Lemma splitText_short_text_witness :
  splitText 2 (of_ascii " hello ") 10 3 = Some [of_ascii "hello"] /\
  splitText 6 (of_ascii "abcd") 5 3 = Some [of_ascii "abcd"; of_ascii "cd"] /\
  splitText 6 (of_ascii "ab   ") 6 2 = Some [of_ascii "ab"].
Proof.
  split; [|split].
  - destruct (splitText_short_text (of_ascii " hello ") 10 3 ltac:(lia) ltac:(lia))
      as [H _].
    rewrite (H 2%nat); [reflexivity | simpl; lia | lia].
  - destruct (splitText_short_text (of_ascii "abcd") 5 3 ltac:(lia) ltac:(lia))
      as [_ H].
    rewrite (H 6%nat); [reflexivity | simpl; lia | simpl; lia].
  - destruct (splitText_short_text (of_ascii "ab   ") 6 2 ltac:(lia) ltac:(lia))
      as [_ H].
    rewrite (H 6%nat); [reflexivity | simpl; lia | simpl; lia].
Defined.

(** C8, counterexample: a text shorter than [size] but longer than the
    stride yields a second, overlapping tail chunk. *)
Lemma splitText_short_text_two_chunks :
  splitText 10 (of_ascii "abcd") 5 3 = Some [of_ascii "abcd"; of_ascii "cd"].
Proof. vm_compute. reflexivity. Qed.

End ChunkFacts.

(** ** Text-mode turns *)
Module TextTurnFacts.
Import TextTurn.

(** C9: for a non-blank message, when the knowledge request fails, answers
    [success = false] or answers an empty context, the original message is
    sent unchanged (as [sendMessage]/[repeatMessage] per the task type and
    mode); when it answers [success = true] with a non-empty context in a
    TALK turn, the sent message is the original text, the reference label
    and the context. *)
Theorem text_turn_message (message : jsstr) (taskType : TaskType)
    (taskMode : TaskMode) (fo : Client.FetchOutcome)
    (Hne : trim message <> []) :
  ((fo = None \/ (exists c, fo = Some (false, c)) \/ (exists b, fo = Some (b, []))) ->
   sent (handleSend message taskType taskMode fo) = [send taskType taskMode message]) /\
  (forall ctx, fo = Some (true, ctx) -> ctx <> [] -> taskType = TALK ->
   sent (handleSend message taskType taskMode fo) =
     [SendMessage taskMode (message ++ reference_label ++ ctx)]).
Proof.
  assert (Hb : Nat.eqb (length (trim message)) 0 = false).
  { apply Nat.eqb_neq. intros H. apply Hne, length_zero_iff_nil, H. }
  unfold handleSend. rewrite Hb. split.
  - intros Hfo. destruct taskType; [|reflexivity].
    destruct Hfo as [->|[[c ->]|[b ->]]]; simpl; [reflexivity|reflexivity|].
    destruct b; reflexivity.
  - intros ctx -> Hctx ->. destruct ctx as [|c r]; [contradiction|].
    reflexivity.
Qed.

Lemma text_turn_message_witness :
  sent (handleSend (of_ascii "hi") TALK ASYNC None) = [SendMessage ASYNC (of_ascii "hi")] /\
  sent (handleSend (of_ascii "hi") TALK SYNC (Some (true, of_ascii "ctx"))) =
    [SendMessage SYNC (of_ascii "hi" ++ reference_label ++ of_ascii "ctx")].
Proof.
  split.
  - apply (text_turn_message (of_ascii "hi") TALK ASYNC None); [discriminate|].
    left. reflexivity.
  - apply (text_turn_message (of_ascii "hi") TALK SYNC (Some (true, of_ascii "ctx")));
      [discriminate|reflexivity|discriminate|reflexivity].
Defined.

End TextTurnFacts.

(** ** Voice sessions *)
Module VoiceFacts.
Import Voice.

Lemma find_pending_app (id : nat) (l l' : list (nat * Handler)) (h : Handler) :
  find_pending id l = Some h -> find_pending id (l ++ l') = Some h.
Proof.
  induction l as [|[k h'] l IH]; simpl; [discriminate|].
  destruct (Nat.eqb k id); auto.
Qed.

(** C1 (as the code has it): nothing marks a turn as processed. In a voice
    session with a buffered message, an utterance-stop followed by an
    end-of-message starts two retrieval requests: one for the buffered
    message, then one for the end-of-message text (its payload keys in
    priority order, falling back to the buffered message). *)
Theorem stop_then_end_two_retrievals (s : VState)
    (detail_message detail_text message : option jsstr)
    (Hv : isVoice s = true) (Hm : lastUserMessage s <> []) :
  calls (run s [UserStop; UserEndMessage detail_message detail_text message]) =
    calls s ++ [lastUserMessage s;
                or_str detail_message (or_str detail_text
                  (or_str message (lastUserMessage s)))].
Proof.
  destruct s as [v last pend nid cs sp]; simpl in *. subst v.
  destruct last as [|c r]; [contradiction|].
  unfold run. simpl.
  destruct detail_message as [[|]|], detail_text as [[|]|], message as [[|]|];
    simpl; rewrite <- app_assoc; reflexivity.
Qed.

Lemma stop_then_end_two_retrievals_witness :
  calls (run (run (init true) [UserStart; UserTalkingMessage (Some (of_ascii "what is x")) None])
             [UserStop; UserEndMessage None None None]) =
    [of_ascii "what is x"; of_ascii "what is x"].
Proof.
  rewrite stop_then_end_two_retrievals; [reflexivity|reflexivity|discriminate].
Defined.

(** C1, counterexample: one voice turn whose utterance-stop and
    end-of-message both fire invokes the retrieval service twice. *)
Lemma one_turn_retrieves_twice :
  length (calls (run (init true) (turn "what is x" ++ [UserEndMessage None None None]))) = 2%nat.
Proof. vm_compute. reflexivity. Qed.

Lemma find_pending_remove_other (id id' : nat) (l : list (nat * Handler)) (h : Handler) :
  id' <> id -> find_pending id l = Some h -> find_pending id (remove_pending id' l) = Some h.
Proof.
  intros Hne. unfold remove_pending.
  induction l as [|[k h'] r IH]; cbn; [discriminate|].
  destruct (Nat.eqb k id) eqn:Ek.
  - intros H. apply Nat.eqb_eq in Ek. subst k.
    replace (Nat.eqb id id') with false by (symmetry; apply Nat.eqb_neq; auto).
    cbn. rewrite Nat.eqb_refl. exact H.
  - intros H. destruct (Nat.eqb k id'); cbn; [|rewrite Ek]; auto.
Qed.

(** Any event other than the settlement of request [id] keeps [id] in
    flight with its handler and only appends to what has been spoken. *)
Lemma step_keeps_request (s : VState) (e : Event) (id : nat) (h : Handler) :
  settles_request id e = false -> find_pending id (pending s) = Some h ->
  find_pending id (pending (step s e)) = Some h /\
  exists more, spoken (step s e) = spoken s ++ more.
Proof.
  intros He Hp. destruct e as [| | |dm dt em|k o]; cbn [step].
  - split; [exact Hp|]. exists []. symmetry. apply app_nil_r.
  - destruct (or_str _ _); (split; [exact Hp|]); exists []; symmetry; apply app_nil_r.
  - destruct (isVoice s); [destruct (lastUserMessage s)|].
    + split; [exact Hp|]. exists []. symmetry. apply app_nil_r.
    + split; [apply find_pending_app, Hp|]. exists []. symmetry. apply app_nil_r.
    + split; [exact Hp|]. exists []. symmetry. apply app_nil_r.
  - destruct (or_str _ _); [|destruct (isVoice s)].
    + split; [exact Hp|]. exists []. symmetry. apply app_nil_r.
    + split; [apply find_pending_app, Hp|]. exists []. symmetry. apply app_nil_r.
    + split; [exact Hp|]. exists []. symmetry. apply app_nil_r.
  - cbn in He. apply Nat.eqb_neq in He.
    destruct (find_pending k (pending s)) as [h'|].
    + unfold resume. cbn. split; [apply find_pending_remove_other; auto|].
      destruct h', (Client.searchKnowledge o).
      * exists []. symmetry. apply app_nil_r.
      * eexists. reflexivity.
      * exists []. symmetry. apply app_nil_r.
      * exists []. symmetry. apply app_nil_r.
    + split; [exact Hp|]. exists []. symmetry. apply app_nil_r.
Qed.

Lemma run_keeps_request (es : list Event) :
  forall (s : VState) (id : nat) (h : Handler),
  Forall (fun e => settles_request id e = false) es ->
  find_pending id (pending s) = Some h ->
  find_pending id (pending (run s es)) = Some h /\
  exists more, spoken (run s es) = spoken s ++ more.
Proof.
  induction es as [|e es IH]; intros s id h Hes Hp.
  - split; [exact Hp|]. exists []. symmetry. apply app_nil_r.
  - inversion Hes as [|? ? He Hes']; subst.
    unfold run. cbn [fold_left]. fold (run (step s e) es).
    destruct (step_keeps_request s e id h He Hp) as [Hp' [m1 Hm1]].
    destruct (IH (step s e) id h Hes' Hp') as [Hp'' [m2 Hm2]].
    split; [exact Hp''|]. exists (m1 ++ m2). rewrite Hm2, Hm1, app_assoc. reflexivity.
Qed.

(** C2 (as the code has it): there is no turn sequence number. A retrieval
    started by an utterance-stop stays in flight across any later events
    other than its own settlement: later turns committing and starting
    their own retrievals, and those retrievals settling (and being spoken)
    first. What was spoken before is kept, and when the old retrieval
    finally settles with a non-empty context, that context is spoken to the
    avatar after everything else. *)
Theorem stale_result_still_spoken (s : VState) (es : list Event) (id : nat)
    (ctx : jsstr)
    (Hp : find_pending id (pending s) = Some OnUserStop)
    (Hes : Forall (fun e => settles_request id e = false) es)
    (Hctx : ctx <> []) :
  find_pending id (pending (run s es)) = Some OnUserStop /\
  (exists more, spoken (run s es) = spoken s ++ more) /\
  spoken (step (run s es) (SearchSettled id (Some (true, ctx)))) =
    spoken (run s es) ++ [speak_text ctx].
Proof.
  destruct (run_keeps_request es s id OnUserStop Hes Hp) as [Hp' Hsp].
  split; [exact Hp'|]. split; [exact Hsp|].
  cbn [step]. rewrite Hp'. unfold resume. cbn.
  destruct ctx as [|c r]; [contradiction|]. reflexivity.
Qed.

Lemma stale_result_still_spoken_witness :
  let s := run (init true) (turn "a") in
  let es := turn "b" ++ [SearchSettled 1 (Some (true, of_ascii "ctx for b"))] in
  find_pending 0 (pending (run s es)) = Some OnUserStop /\
  (exists more, spoken (run s es) = spoken s ++ more) /\
  spoken (step (run s es) (SearchSettled 0 (Some (true, of_ascii "ctx for a")))) =
    spoken (run s es) ++ [speak_text (of_ascii "ctx for a")].
Proof.
  intros s es.
  apply (stale_result_still_spoken s es 0 (of_ascii "ctx for a")).
  - reflexivity.
  - repeat constructor.
  - discriminate.
Defined.

(** C2, counterexample: turn 2 commits and starts its retrieval while the
    retrieval of turn 1 is in flight; turn 1's result, settling afterwards,
    is spoken. *)
Lemma stale_turn_result_spoken :
  let s := run (init true) (turn "a" ++ turn "b") in
  calls s = [of_ascii "a"; of_ascii "b"] /\
  spoken (step s (SearchSettled 0 (Some (true, of_ascii "ctx for a")))) =
    [speak_text (of_ascii "ctx for a")].
Proof. vm_compute. split; reflexivity. Qed.

End VoiceFacts.

(** ** [path.extname] *)
Module PathFacts.
Import Path.

Lemma lacks_rev (c : N) (s : jsstr) : lacks c (rev s) = lacks c s.
Proof.
  unfold lacks. induction s as [|x s IH]; simpl; [reflexivity|].
  rewrite forallb_app, IH. simpl. rewrite andb_true_r, andb_comm. reflexivity.
Qed.

Lemma lacks_app (c : N) (s t : jsstr) :
  lacks c (s ++ t) = lacks c s && lacks c t.
Proof. unfold lacks. apply forallb_app. Qed.

Lemma loop_app (xs ys : jsstr) (i : Z) (st : ExtSt) :
  lacks 47 xs = true ->
  ext_loop (xs ++ ys) i st = ext_loop ys (i - Z.of_nat (length xs)) (ext_loop xs i st).
Proof.
  revert i st. induction xs as [|c r IH]; intros i st H; simpl.
  - rewrite Z.sub_0_r. reflexivity.
  - simpl in H. apply andb_prop in H as [Hc Hr].
    destruct (c =? 47)%N; [discriminate|].
    rewrite IH by exact Hr. f_equal. lia.
Qed.

Lemma loop_plain (cs : jsstr) (i : Z) (st : ExtSt) :
  lacks 46 cs = true -> lacks 47 cs = true ->
  startDot st = (-1)%Z -> endi st <> (-1)%Z -> ext_loop cs i st = st.
Proof.
  revert i. induction cs as [|c r IH]; intros i Hd Hs Hsd Hen; simpl; [reflexivity|].
  simpl in Hd, Hs. apply andb_prop in Hd as [Hc1 Hr1].
  apply andb_prop in Hs as [Hc2 Hr2].
  destruct (c =? 47)%N; [discriminate|].
  destruct (c =? 46)%N; [discriminate|].
  replace (endi st =? -1)%Z with false by (symmetry; apply Z.eqb_neq; exact Hen).
  rewrite Hsd. simpl. apply IH; auto.
Qed.

Lemma loop_first (cs : jsstr) (i : Z) :
  (0 <= i)%Z -> cs <> [] -> lacks 46 cs = true -> lacks 47 cs = true ->
  ext_loop cs i ext_init = mkExt (-1) 0 (i + 1) false 0.
Proof.
  destruct cs as [|c r]; intros Hi Hne Hd Hs; [contradiction|].
  simpl in Hd, Hs. apply andb_prop in Hd as [Hc1 Hr1].
  apply andb_prop in Hs as [Hc2 Hr2].
  simpl. destruct (c =? 47)%N; [discriminate|].
  destruct (c =? 46)%N; [discriminate|]. simpl.
  apply loop_plain; simpl; auto. lia.
Qed.

Lemma loop_tail (ys : jsstr) (i : Z) (sd sp en : Z) (ms : bool) (pre : Z) :
  lacks 47 ys = true -> sd <> (-1)%Z -> en <> (-1)%Z ->
  ext_loop ys i (mkExt sd sp en ms pre) =
    mkExt sd sp en ms
      (match ys with
       | [] => pre
       | _ => if (last ys 0%N =? 46)%N then 1 else -1
       end).
Proof.
  revert i pre. induction ys as [|c r IH]; intros i pre Hs Hsd Hen; [reflexivity|].
  simpl in Hs. apply andb_prop in Hs as [Hc Hr].
  simpl ext_loop. destruct (c =? 47)%N; [discriminate|].
  cbn [startDot startPart endi matchedSlash preDotState].
  replace (en =? -1)%Z with false by (symmetry; apply Z.eqb_neq; exact Hen).
  cbn [startDot startPart endi matchedSlash preDotState].
  replace (sd =? -1)%Z with false by (symmetry; apply Z.eqb_neq; exact Hsd).
  destruct (c =? 46)%N eqn:Ec; [destruct (pre =? 1)%Z eqn:Ep|]; simpl;
    rewrite IH by auto; destruct r as [|c' r']; simpl; rewrite ?Ec; try reflexivity.
  apply Z.eqb_eq in Ep. subst. reflexivity.
Qed.

Lemma loop_dot_init (ys : jsstr) (i : Z) :
  ext_loop (46%N :: ys) i ext_init = ext_loop ys (i - 1) (mkExt i 0 (i + 1) false 0).
Proof. reflexivity. Qed.

Lemma loop_dot (ys : jsstr) (i sp en : Z) :
  en <> (-1)%Z ->
  ext_loop (46%N :: ys) i (mkExt (-1) sp en false 0) =
    ext_loop ys (i - 1) (mkExt i sp en false 0).
Proof.
  intros Hen. simpl ext_loop. cbn [startDot startPart endi matchedSlash preDotState].
  replace (en =? -1)%Z with false by (symmetry; apply Z.eqb_neq; exact Hen).
  reflexivity.
Qed.

Lemma slice_suffix (x y : jsstr) :
  slice (x ++ y) (Z.of_nat (length x)) (Z.of_nat (length (x ++ y))) = y.
Proof.
  unfold slice, rel_index. rewrite length_app.
  replace (Z.of_nat (length x) <? 0)%Z with false by (symmetry; apply Z.ltb_ge; lia).
  replace (Z.of_nat (length x + length y) <? 0)%Z with false
    by (symmetry; apply Z.ltb_ge; lia).
  rewrite Z.min_l by lia. rewrite Z.min_l by lia.
  replace (Z.to_nat (Z.of_nat (length x))) with (length x) by lia.
  rewrite skipn_app, skipn_all, Nat.sub_diag. simpl.
  replace (Z.to_nat (Z.of_nat (length x + length y) - Z.of_nat (length x)))
    with (length y) by lia.
  apply firstn_all.
Qed.

Lemma slice_suffix_at (x y : jsstr) (a c : Z) :
  a = Z.of_nat (length x) -> c = Z.of_nat (length (x ++ y)) -> slice (x ++ y) a c = y.
Proof. intros -> ->. apply slice_suffix. Qed.

Ltac zbool :=
  repeat match goal with
  | |- context [Z.eqb ?a ?b] => destruct (Z.eqb_spec a b)
  | |- context [Nat.eqb ?a ?b] => destruct (Nat.eqb_spec a b)
  end.

(** [path.extname] of [pre ++ b ++ "." ++ e], where [pre] is empty or ends
    in '/', [b] has no '/' and [e] has no '.' nor '/': the extension is
    ["." ++ e], except that it is empty when [b] is empty (a dot file such
    as [.env]) or when the name is [..]. *)
Theorem extname_last_dot (pre b e : jsstr)
    (Hpre : pre = [] \/ exists p', pre = p' ++ [47%N])
    (Hb : lacks 47 b = true) (He1 : lacks 46 e = true) (He2 : lacks 47 e = true) :
  extname (pre ++ b ++ 46%N :: e) =
    if Nat.eqb (length b) 0
       || (Nat.eqb (length b) 1 && (hd 0%N b =? 46)%N && Nat.eqb (length e) 0)
    then [] else 46%N :: e.
Proof.
  set (L := Z.of_nat (length (pre ++ b ++ 46%N :: e))).
  assert (HL : L = (Z.of_nat (length pre) + Z.of_nat (length b) + 1
                    + Z.of_nat (length e))%Z).
  { unfold L. rewrite !length_app. simpl. lia. }
  set (pre3 := match rev b with
               | [] => 0%Z
               | _ => if (last (rev b) 0%N =? 46)%N then 1%Z else (-1)%Z
               end).
  assert (Htail : forall j en, j = Z.of_nat (length pre + length b) -> en = L ->
    ext_loop (rev b ++ rev pre) (j - 1) (mkExt j 0 en false 0) =
      mkExt (Z.of_nat (length pre + length b)) (Z.of_nat (length pre)) L false pre3).
  { intros j en -> ->.
    rewrite loop_app by (rewrite lacks_rev; exact Hb).
    rewrite loop_tail by (try (rewrite lacks_rev; exact Hb); lia).
    rewrite length_rev. fold pre3.
    destruct Hpre as [->|[p' ->]].
    - reflexivity.
    - rewrite rev_app_distr. simpl ext_loop. f_equal. rewrite length_app. simpl. lia. }
  assert (Hfinal : ext_loop (rev (pre ++ b ++ 46%N :: e)) (L - 1) ext_init =
      mkExt (Z.of_nat (length pre + length b)) (Z.of_nat (length pre)) L false pre3).
  { replace (rev (pre ++ b ++ 46%N :: e)) with (rev e ++ 46%N :: (rev b ++ rev pre))
      by (rewrite !rev_app_distr; simpl; rewrite <- !app_assoc; reflexivity).
    rewrite loop_app by (rewrite lacks_rev; exact He2). rewrite length_rev.
    destruct e as [|c e'].
    - simpl ext_loop at 2. rewrite loop_dot_init. apply Htail; cbn [length] in *; lia.
    - rewrite loop_first; [| simpl in HL; lia | simpl; intros Hn; apply app_eq_nil in Hn as [_ Hn]; discriminate
                           | rewrite lacks_rev; exact He1 | rewrite lacks_rev; exact He2].
      rewrite loop_dot by (cbn [length] in *; lia). apply Htail; cbn [length] in *; lia. }
  unfold extname. fold L. rewrite Hfinal. cbn [startDot startPart endi preDotState].
  replace (pre ++ b ++ 46%N :: e) with ((pre ++ b) ++ 46%N :: e) by (symmetry; apply app_assoc).
  destruct b as [|x b'].
  - subst pre3. simpl. rewrite orb_true_r. reflexivity.
  - assert (Hp3 : pre3 = if (x =? 46)%N then 1%Z else (-1)%Z).
    { subst pre3. simpl. destruct (rev b' ++ [x]) eqn:Er.
      - apply app_eq_nil in Er as [_ Er]. discriminate.
      - rewrite <- Er, last_last. reflexivity. }
    rewrite Hp3. simpl hd. cbn [length] in *.
    destruct (x =? 46)%N; zbool; simpl; try lia;
      try (apply slice_suffix_at; [rewrite length_app; simpl; lia
                                  | rewrite HL, !length_app; simpl; lia]);
      reflexivity.
Qed.

Lemma loop_nodot (cs : jsstr) :
  forall i st, lacks 46 cs = true -> startDot st = (-1)%Z ->
  startDot (ext_loop cs i st) = (-1)%Z.
Proof.
  induction cs as [|c r IH]; intros i [sd sp en ms pd] Hd Hsd; cbn in *; [exact Hsd|].
  subst sd. apply andb_prop in Hd as [Hc Hr].
  destruct (c =? 47)%N.
  - destruct ms; cbn; [apply IH; auto|reflexivity].
  - destruct (c =? 46)%N; [discriminate|].
    destruct (en =? -1)%Z; cbn; apply IH; auto.
Qed.

Lemma extname_nodot (p : jsstr) : lacks 46 p = true -> extname p = [].
Proof.
  intros H. unfold extname.
  rewrite (loop_nodot (rev p)); [reflexivity | rewrite lacks_rev; exact H | reflexivity].
Qed.

Lemma split_last_dot (f : jsstr) :
  lacks 46 f = true \/ exists b e, f = b ++ 46%N :: e /\ lacks 46 e = true.
Proof.
  induction f as [|c r [Hr|(b & e & -> & He)]]; [left; reflexivity| |].
  - destruct (c =? 46)%N eqn:Ec.
    + right. exists [], r. apply N.eqb_eq in Ec. subst. auto.
    + left. cbn. rewrite Ec. exact Hr.
  - right. exists (c :: b), e. auto.
Qed.

Lemma extname_under_folder (f : jsstr) :
  lacks 47 f = true -> extname (of_ascii "documents/" ++ f) = extname f.
Proof.
  intros Hf. destruct (split_last_dot f) as [Hd|(b & e & -> & He)].
  - rewrite !extname_nodot; [reflexivity|exact Hd|].
    rewrite lacks_app. rewrite Hd. reflexivity.
  - rewrite lacks_app in Hf. apply andb_prop in Hf as [Hb He2].
    cbn in He2. change (lacks 47 e = true) in He2.
    rewrite (extname_last_dot (of_ascii "documents/") b e); auto.
    + rewrite <- (app_nil_l (b ++ 46%N :: e)).
      rewrite (extname_last_dot [] b e); auto.
    + right. exists (of_ascii "documents"). reflexivity.
Qed.



End PathFacts.

(** ** The ingestion script *)
Module IngestFacts.
Import Path Ingest Chunk IngestDemo PathFacts.

(** *** Trimmed windows *)

Lemma drop_ws_suffix (s : jsstr) : exists p, s = p ++ drop_ws s.
Proof.
  induction s as [|c r [p Hp]]; [exists []; reflexivity|].
  simpl. destruct (is_js_ws c).
  - exists (c :: p). simpl. f_equal. exact Hp.
  - exists []. reflexivity.
Qed.

Lemma drop_ws_idem (s : jsstr) : drop_ws (drop_ws s) = drop_ws s.
Proof.
  induction s as [|c r IH]; [reflexivity|].
  simpl. destruct (is_js_ws c) eqn:E; [exact IH|]. simpl. rewrite E. reflexivity.
Qed.

Lemma drop_ws_head (s : jsstr) (x : N) (r : jsstr) :
  drop_ws s = x :: r -> is_js_ws x = false.
Proof.
  induction s as [|c s' IH]; [discriminate|].
  simpl. destruct (is_js_ws c) eqn:E; [exact IH|].
  intros H. injection H as -> _. exact E.
Qed.

Lemma trim_prefix_of_dropped (s : jsstr) :
  exists w, drop_ws s = trim s ++ w.
Proof.
  destruct (drop_ws_suffix (rev (drop_ws s))) as [p Hp].
  exists (rev p). unfold trim.
  rewrite <- (rev_involutive (drop_ws s)) at 1. rewrite Hp at 1. rewrite rev_app_distr.
  reflexivity.
Qed.

Lemma trim_infix (s : jsstr) : exists p q, s = p ++ trim s ++ q.
Proof.
  destruct (drop_ws_suffix s) as [p Hp]. destruct (trim_prefix_of_dropped s) as [w Hw].
  exists p, w. rewrite <- Hw. exact Hp.
Qed.

Lemma trim_idem (s : jsstr) : trim (trim s) = trim s.
Proof.
  assert (Hd : drop_ws (trim s) = trim s).
  { destruct (trim_prefix_of_dropped s) as [w Hw].
    destruct (trim s) as [|x r] eqn:Et; [reflexivity|].
    simpl. rewrite (drop_ws_head s x (r ++ w) Hw). reflexivity. }
  unfold trim at 1. rewrite Hd. unfold trim.
  rewrite rev_involutive, drop_ws_idem. reflexivity.
Qed.

Lemma slice_infix (s : jsstr) (a b : Z) : exists p q, s = p ++ slice s a b ++ q.
Proof.
  unfold slice. cbv zeta.
  generalize (Z.to_nat (rel_index (Z.of_nat (length s)) b
                        - rel_index (Z.of_nat (length s)) a)) as k.
  generalize (Z.to_nat (rel_index (Z.of_nat (length s)) a)) as m.
  intros m k.
  exists (firstn m s), (skipn k (skipn m s)).
  rewrite firstn_skipn. symmetry. apply firstn_skipn.
Qed.

Lemma slice_window_length (s : jsstr) (i size : Z) :
  (0 <= size)%Z -> (length (slice s i (i + size)) <= Z.to_nat size)%nat.
Proof.
  intros Hs. unfold slice, rel_index. rewrite length_firstn.
  destruct (i <? 0)%Z eqn:E1; destruct (i + size <? 0)%Z eqn:E2;
    rewrite ?Z.ltb_lt, ?Z.ltb_ge in E1, E2; lia.
Qed.

Lemma split_loop_good (text : jsstr) (size overlap : Z) :
  (0 <= size)%Z ->
  forall fuel i acc r, split_loop fuel text size overlap i acc = Some r ->
  Forall (good_chunk text size) acc -> Forall (good_chunk text size) r.
Proof.
  intros Hs fuel. induction fuel as [|fuel IH]; intros i acc r H Hacc; [discriminate|].
  simpl in H. destruct (i <? Z.of_nat (length text))%Z; [|injection H as <-; exact Hacc].
  apply IH in H; [exact H|].
  destruct (Nat.eqb (length (trim (slice text i (i + size)))) 0) eqn:E; [exact Hacc|].
  apply Forall_app. split; [exact Hacc|]. constructor; [|constructor].
  set (w := slice text i (i + size)) in *.
  split; [|split; [|split]].
  - intros Hn. rewrite Hn in E. discriminate.
  - destruct (trim_infix w) as (p & q & Hpq).
    pose proof (slice_window_length text i size Hs) as Hl. fold w in Hl.
    assert (length w = length p + length (trim w) + length q)%nat
      by (rewrite Hpq at 1; rewrite !length_app; lia).
    lia.
  - apply trim_idem.
  - destruct (slice_infix text i (i + size)) as (p1 & q1 & H1).
    destruct (trim_infix w) as (p2 & q2 & H2).
    exists (p1 ++ p2), (q2 ++ q1). rewrite H1 at 1. fold w. rewrite H2 at 1.
    rewrite !app_assoc. reflexivity.
Qed.

(** [main] splits every extracted text into chunks that are non-empty,
    have at most [CHUNK_SIZE] = 100 code units, carry no leading or
    trailing whitespace, and are each a contiguous piece of the text. *)
Theorem ingested_chunks_bounded (text : jsstr) :
  Forall (fun c => c <> [] /\ (length c <= 100)%nat /\ trim c = c /\
                   exists p q, text = p ++ c ++ q)
         (chunks_of text).
Proof.
  unfold chunks_of, splitText.
  destruct (split_loop (S (length text)) text CHUNK_SIZE CHUNK_OVERLAP 0 []) eqn:E;
    [|constructor].
  apply (split_loop_good text CHUNK_SIZE CHUNK_OVERLAP) in E;
    [exact E | unfold CHUNK_SIZE; lia | constructor].
Qed.

(** *** Records *)

Lemma embed_chunks_ok (embed : jsstr -> sum jsstr (list Q)) (vec : jsstr -> list Q)
    (Hemb : forall c, embed c = inr (vec c)) (name file : jsstr) :
  forall chunks i,
  embed_chunks embed name file i chunks =
    (chunks, inr (map (record_of vec name file) (combine (seq i (length chunks)) chunks))).
Proof.
  induction chunks as [|c r IH]; intros i; [reflexivity|].
  simpl. rewrite Hemb, IH. reflexivity.
Qed.

Lemma process_ok (extract : Extractor -> jsstr -> option jsstr)
    (embed : jsstr -> sum jsstr (list Q)) (vec : jsstr -> list Q)
    (Hemb : forall c, embed c = inr (vec c)) :
  forall files,
  process extract embed files =
    (flat_map (file_chunks extract) files,
     inr (flat_map (file_records extract vec) files)).
Proof.
  induction files as [|f fs IH]; [reflexivity|].
  simpl. unfold file_records, file_chunks.
  destruct (extractTextFromFile extract (filePath f)) as [[|x t]|].
  - rewrite IH. reflexivity.
  - rewrite embed_chunks_ok with (vec := vec) by exact Hemb. rewrite IH. reflexivity.
  - rewrite IH. reflexivity.
Qed.

Lemma embed_chunks_fail (embed : jsstr -> sum jsstr (list Q)) (name file : jsstr) (c : jsstr) (e : jsstr) :
  embed c = inl e ->
  forall chunks i, In c chunks ->
  exists e', snd (embed_chunks embed name file i chunks) = inl e'.
Proof.
  intros Hc chunks. induction chunks as [|c0 r IH]; intros i Hin; [destruct Hin|].
  simpl. destruct (embed c0) as [e0|v] eqn:E0; [exists e0; reflexivity|].
  destruct Hin as [->|Hin]; [congruence|].
  destruct (IH (S i) Hin) as [e' He'].
  destruct (embed_chunks embed name file (S i) r) as [calls [e1|rs]]; simpl in He';
    [|discriminate].
  exists e1. reflexivity.
Qed.

Lemma process_fail (extract : Extractor -> jsstr -> option jsstr)
    (embed : jsstr -> sum jsstr (list Q)) (f text c e : jsstr) :
  extractTextFromFile extract (filePath f) = Some text -> In c (chunks_of text) ->
  embed c = inl e ->
  forall files, In f files ->
  exists e', snd (process extract embed files) = inl e'.
Proof.
  intros Hx Hc He files. induction files as [|g gs IH]; intros Hin; [destruct Hin|].
  destruct Hin as [->|Hin].
  - simpl. rewrite Hx. destruct text as [|x t]; [destruct Hc|].
    destruct (embed_chunks_fail embed (parse_name f) f c e He
                (chunks_of (x :: t)) 0 Hc) as [e' He'].
    destruct (embed_chunks embed (parse_name f) f 0 (chunks_of (x :: t)))
      as [c1 [e1|rs1]]; simpl in He'; [|discriminate].
    exists e1. reflexivity.
  - destruct (IH Hin) as [e' He']. simpl.
    destruct (extractTextFromFile extract (filePath g)) as [[|x t]|];
      [exists e'; exact He' | | exists e'; exact He'].
    destruct (embed_chunks embed (parse_name g) g 0 (chunks_of (x :: t))) as [c1 [e1|rs1]];
      [exists e1; reflexivity|].
    destruct (process extract embed gs) as [c2 [e2|rs2]]; simpl in He'; [|discriminate].
    exists e2. reflexivity.
Qed.

(** *** Upsert batches *)

Lemma upsert_loop_S (upsert : list VectorRecord -> sum jsstr unit) fuel v i :
  upsert_loop upsert (S fuel) v i =
    if Nat.ltb i (length v) then
      let batch := firstn 100 (skipn i v) in
      match upsert batch with
      | inl e => Some ([batch], inl e)
      | inr _ =>
          match upsert_loop upsert fuel v (i + 100) with
          | Some (bs, r) => Some (batch :: bs, r)
          | None => None
          end
      end
    else Some ([], inr tt).
Proof. reflexivity. Qed.


Lemma upsert_loop_batches (upsert : list VectorRecord -> sum jsstr unit)
    (v : list VectorRecord) :
  forall fuel i bs r, upsert_loop upsert fuel v i = Some (bs, r) ->
  Forall batch_ok bs /\
  match r with
  | inl e => exists pre b, bs = pre ++ [b] /\ upsert b = inl e /\
                           Forall (fun b' => upsert b' = inr tt) pre
  | inr _ => Forall (fun b' => upsert b' = inr tt) bs
  end.
Proof.
  induction fuel as [|fuel IH]; intros i bs r H; [discriminate|].
  rewrite upsert_loop_S in H. cbv zeta in H.
  destruct (Nat.ltb i (length v)) eqn:Ei; [|injection H as <- <-; auto].
  apply Nat.ltb_lt in Ei.
  assert (Hb : batch_ok (firstn 100 (skipn i v)))
    by (unfold batch_ok; rewrite length_firstn, length_skipn; lia).
  destruct (upsert (firstn 100 (skipn i v))) as [e|[]] eqn:Eu.
  - injection H as <- <-. split; [constructor; [exact Hb | constructor]|].
    exists [], (firstn 100 (skipn i v)). auto.
  - destruct (upsert_loop upsert fuel v (i + 100)) as [[bs' r']|] eqn:Er; [|discriminate].
    injection H as <- <-. destruct (IH _ _ _ Er) as [Hok Hr].
    split; [constructor; assumption|].
    destruct r' as [e|u].
    + destruct Hr as (pre & b & -> & Hbe & Hpre).
      exists (firstn 100 (skipn i v) :: pre), b. repeat split; auto.
    + constructor; assumption.
Qed.

(** *** Main *)




(** If some chunk of a supported entry's text fails to embed, [main]
    rejects and never calls [index.upsert]: nothing at all is stored. *)
Theorem main_embed_failure_no_upsert (extract : Extractor -> jsstr -> option jsstr)
    (embed : jsstr -> sum jsstr (list Q)) (upsert : list VectorRecord -> sum jsstr unit)
    (entries : list jsstr) (f text c e : jsstr)
    (Hf : In f entries) (Hs : supported_file f = true)
    (Hx : extractTextFromFile extract (filePath f) = Some text)
    (Hc : In c (chunks_of text)) (He : embed c = inl e) :
  exists calls e',
    main extract embed upsert entries =
      Some {| embedded := calls; upserted := []; result := inl e' |}.
Proof.
  unfold main.
  destruct (process_fail extract embed f text c e Hx Hc He (filter supported_file entries))
    as [e' H']; [apply filter_In; auto|].
  destruct (process extract embed (filter supported_file entries)) as [calls [e1|vs]];
    simpl in H'; [|discriminate].
  exists calls, e1. reflexivity.
Qed.

Lemma main_embed_failure_no_upsert_witness :
  exists calls e',
    main w_extract w_embed_down w_upsert w_entries =
      Some {| embedded := calls; upserted := []; result := inl e' |}.
Proof.
  apply (main_embed_failure_no_upsert w_extract w_embed_down w_upsert w_entries
           (of_ascii "hours.txt") (of_ascii "Opening hours are nine to five.")
           (of_ascii "Opening hours are nine to five.") (of_ascii "429")).
  - simpl. auto.
  - reflexivity.
  - reflexivity.
  - vm_compute. left. reflexivity.
  - vm_compute. reflexivity.
Defined.

(** A run of [main] that rejects has made no [index.upsert] call after a
    failed one: either no upsert was made at all (an embedding failed), or
    the last batch sent is the one whose upsert failed with the reported
    error and every earlier batch was stored; every batch sent holds 1 to
    100 records. *)
Theorem main_rejection_stops_upserts (extract : Extractor -> jsstr -> option jsstr)
    (embed : jsstr -> sum jsstr (list Q)) (upsert : list VectorRecord -> sum jsstr unit)
    (entries : list jsstr) (run : MainRun) (e : jsstr)
    (Hm : main extract embed upsert entries = Some run) (Hr : result run = inl e) :
  Forall batch_ok (upserted run) /\
  (upserted run = [] \/
   exists pre b, upserted run = pre ++ [b] /\ upsert b = inl e /\
                 Forall (fun b' => upsert b' = inr tt) pre).
Proof.
  unfold main in Hm.
  destruct (process extract embed (filter supported_file entries)) as [calls [e1|vs]].
  - injection Hm as <-. split; [constructor | left; reflexivity].
  - destruct (upsert_loop upsert (S (length vs)) vs 0) as [[bs r]|] eqn:E; [|discriminate].
    injection Hm as <-. cbn [upserted result] in *.
    destruct r as [e2|u]; [|discriminate]. injection Hr as ->.
    apply upsert_loop_batches in E as [Hok H]. split; [exact Hok | right; exact H].
Qed.

Lemma main_rejection_stops_upserts_witness :
  Forall batch_ok (upserted w_run_down) /\
  (upserted w_run_down = [] \/
   exists pre b, upserted w_run_down = pre ++ [b] /\ w_upsert_down b = inl (of_ascii "503") /\
                 Forall (fun b' => w_upsert_down b' = inr tt) pre).
Proof.
  apply (main_rejection_stops_upserts w_extract w_embed w_upsert_down w_many_entries
           w_run_down (of_ascii "503")); vm_compute; reflexivity.
Defined.

(** Records are keyed by the entry's base name only: two entries that
    share it (e.g. [a.pdf] and [a.txt]) and both yield chunks give records
    with the same id, so the later upsert replaces the earlier vector. *)
Theorem shared_base_name_ids_collide (extract : Extractor -> jsstr -> option jsstr)
    (embed : jsstr -> sum jsstr (list Q)) (vec : jsstr -> list Q) (f g : jsstr)
    (Hemb : forall c, embed c = inr (vec c))
    (Hn : parse_name f = parse_name g)
    (Hcf : file_chunks extract f <> []) (Hcg : file_chunks extract g <> []) :
  exists recs, snd (process extract embed [f; g]) = inr recs /\ ~ NoDup (map r_id recs).
Proof.
  exists (flat_map (file_records extract vec) [f; g]).
  rewrite (process_ok extract embed vec Hemb). split; [reflexivity|].
  cbn [flat_map]. rewrite app_nil_r. unfold file_records.
  destruct (file_chunks extract f) as [|c cs]; [contradiction|].
  destruct (file_chunks extract g) as [|d ds]; [contradiction|].
  cbn [length seq combine map app]. rewrite map_app. cbn [map].
  intros H. apply NoDup_cons_iff in H as [H _]. apply H.
  apply in_or_app. right. left. unfold record_of. cbn [r_id fst]. rewrite Hn. reflexivity.
Qed.

Lemma shared_base_name_ids_collide_witness :
  exists recs, snd (process w_extract w_embed [of_ascii "a.pdf"; of_ascii "a.txt"]) = inr recs /\
               ~ NoDup (map r_id recs).
Proof.
  apply (shared_base_name_ids_collide w_extract w_embed w_vec
           (of_ascii "a.pdf") (of_ascii "a.txt")).
  - intros c. reflexivity.
  - vm_compute. reflexivity.
  - vm_compute. discriminate.
  - vm_compute. discriminate.
Defined.

(** For a directory entry (no '/'), the [readdirSync] filter of [main]
    and the dispatch of [extractTextFromFile] on [documents/<entry>] agree:
    an entry passes the filter exactly when an extractor handles it, so no
    kept entry is skipped for an unsupported type. *)
Theorem filter_agrees_with_extractor (f : jsstr) (Hf : lacks 47 f = true) :
  supported_file f = true <-> extractor_for (filePath f) <> None.
Proof.
  unfold supported_file, extractor_for, filePath.
  rewrite (extname_under_folder f Hf).
  unfold supported_exts. cbn [existsb].
  destruct (jsstr_eqb (lower (extname f)) (of_ascii ".pdf"));
    destruct (jsstr_eqb (lower (extname f)) (of_ascii ".doc"));
    destruct (jsstr_eqb (lower (extname f)) (of_ascii ".docx"));
    destruct (jsstr_eqb (lower (extname f)) (of_ascii ".txt"));
    cbn; split; congruence.
Qed.

Lemma filter_agrees_with_extractor_witness :
  lacks 47 (of_ascii "Manual.DOCX") = true /\
  (supported_file (of_ascii "Manual.DOCX") = true <->
   extractor_for (filePath (of_ascii "Manual.DOCX")) <> None).
Proof.
  split; [reflexivity|]. apply filter_agrees_with_extractor. reflexivity.
Defined.

(** For a directory entry (no '/'), [path.parse(file).name] (the id
    prefix of its records) followed by [path.extname(file)] gives back the
    entry. *)
Theorem parse_name_extname (f : jsstr) (Hf : lacks 47 f = true) :
  parse_name f ++ extname f = f.
Proof.
  unfold parse_name.
  destruct (split_last_dot f) as [Hd|(b & e & -> & He)].
  - rewrite (extname_nodot f Hd). cbn [length]. rewrite Nat.sub_0_r, firstn_all.
    apply app_nil_r.
  - rewrite lacks_app in Hf. apply andb_prop in Hf as [Hb He2].
    cbn in He2. change (lacks 47 e = true) in He2.
    pose proof (extname_last_dot [] b e (or_introl eq_refl) Hb He He2) as Hx.
    rewrite app_nil_l in Hx. rewrite Hx.
    destruct (_ || _).
    + cbn [length]. rewrite Nat.sub_0_r, firstn_all. apply app_nil_r.
    + replace (length (b ++ 46%N :: e) - length (46%N :: e))%nat with (length b)
        by (rewrite length_app; lia).
      rewrite firstn_app, Nat.sub_diag, firstn_all, firstn_O, !app_nil_r.
      reflexivity.
Qed.

Lemma parse_name_extname_witness :
  lacks 47 (of_ascii "v2.handbook.pdf") = true /\
  parse_name (of_ascii "v2.handbook.pdf") ++ extname (of_ascii "v2.handbook.pdf")
    = of_ascii "v2.handbook.pdf".
Proof.
  split; [reflexivity|]. apply parse_name_extname. reflexivity.
Defined.

End IngestFacts.

(** ** Voice sessions: what the handlers never do *)
Module VoiceSessionFacts.
Import Voice.

Lemma run_cons (s : VState) (e : Event) (es : list Event) :
  run s (e :: es) = run (step s e) es.
Proof. reflexivity. Qed.

Lemma run_app (s : VState) (l1 l2 : list Event) :
  run s (l1 ++ l2) = run (run s l1) l2.
Proof. unfold run. apply fold_left_app. Qed.

Lemma text_mode_step (s : VState) (e : Event) :
  isVoice s = false -> pending s = [] ->
  isVoice (step s e) = false /\ pending (step s e) = [] /\
  calls (step s e) = calls s /\ spoken (step s e) = spoken s.
Proof.
  destruct s as [v l p n c sp]; cbn; intros -> ->.
  destruct e; cbn;
    repeat match goal with |- context [match ?x with _ => _ end] => destruct x end;
    cbn; auto.
Qed.

Lemma text_mode_run (es : list Event) :
  forall s, isVoice s = false -> pending s = [] ->
  calls (run s es) = calls s /\ spoken (run s es) = spoken s.
Proof.
  induction es as [|e es IH]; intros s Hv Hp; [auto|].
  rewrite run_cons.
  destruct (text_mode_step s e Hv Hp) as (Hv' & Hp' & Hc & Hs).
  destruct (IH _ Hv' Hp') as [Hc' Hs']. rewrite Hc', Hs'. auto.
Qed.

(** A session started in text mode ([isVoice = false]) never starts a
    knowledge search and never speaks from a voice handler, whatever
    events arrive. *)
Theorem text_mode_never_retrieves (es : list Event) :
  calls (run (init false) es) = [] /\ spoken (run (init false) es) = [].
Proof. apply (text_mode_run es (init false)); reflexivity. Qed.

Lemma length_filter_le {A} (f : A -> bool) (l : list A) :
  (length (filter f l) <= length l)%nat.
Proof. induction l as [|a r IH]; cbn; [lia|]. destruct (f a); cbn; lia. Qed.

Lemma remove_found (id : nat) (l : list (nat * Handler)) (h : Handler) :
  find_pending id l = Some h -> (S (length (remove_pending id l)) <= length l)%nat.
Proof.
  unfold remove_pending.
  induction l as [|[k h'] r IH]; cbn; [discriminate|].
  destruct (Nat.eqb k id); cbn.
  - intros _. pose proof (length_filter_le (fun p => negb (Nat.eqb (fst p) id)) r). lia.
  - intros H. apply IH in H. lia.
Qed.

Definition speak_bound (s : VState) : Prop :=
  (length (spoken s) + length (pending s) <= length (calls s))%nat.

Lemma step_speak_bound (s : VState) (e : Event) :
  speak_bound s -> speak_bound (step s e).
Proof.
  unfold speak_bound. intros H.
  destruct e as [| | |dm dt em|id o]; cbn [step].
  - exact H.
  - destruct (or_str _ _); [exact H | exact H].
  - destruct (isVoice s); [|exact H].
    destruct (lastUserMessage s); [exact H|].
    cbn. rewrite !length_app. cbn. lia.
  - destruct (or_str _ _); [exact H|]. destruct (isVoice s); [|exact H].
    cbn. rewrite !length_app. cbn. lia.
  - destruct (find_pending id (pending s)) as [h|] eqn:Ef; [|exact H].
    apply remove_found in Ef. unfold resume. cbn.
    destruct h, (Client.searchKnowledge o); cbn; rewrite ?length_app; cbn; lia.
Qed.

(** In a session of either mode, after any sequence of events, the
    number of [avatar.speak] calls plus the number of searches still in
    flight is at most the number of searches started: each speak answers
    its own search, and a search answers at most once. *)
Theorem speak_count_bounded (voice : bool) (es : list Event) :
  (length (spoken (run (init voice) es)) + length (pending (run (init voice) es))
     <= length (calls (run (init voice) es)))%nat.
Proof.
  change (speak_bound (run (init voice) es)).
  assert (H : forall s, speak_bound s -> speak_bound (run s es)).
  { induction es as [|e es IH]; intros s Hs; [exact Hs|].
    rewrite run_cons. apply IH, step_speak_bound, Hs. }
  apply H. unfold speak_bound. cbn. lia.
Qed.

(** *** One voice turn *)

Definition talk (ts : list (option jsstr * option jsstr)) : list Event :=
  map (fun p => UserTalkingMessage (fst p) (snd p)) ts.

Definition no_text (p : option jsstr * option jsstr) : Prop :=
  or_str (fst p) (or_str (snd p) []) = [].

Lemma talk_cons (p : option jsstr * option jsstr) ts :
  talk (p :: ts) = UserTalkingMessage (fst p) (snd p) :: talk ts.
Proof. reflexivity. Qed.

Lemma run_talk_silent (ts : list (option jsstr * option jsstr)) :
  Forall no_text ts -> forall s, run s (talk ts) = s.
Proof.
  induction 1 as [|[dm dt] ts Hp Hts IH]; intros s; [reflexivity|].
  rewrite talk_cons, run_cons. unfold no_text in Hp. cbn [fst snd] in Hp.
  cbn [step fst snd]. rewrite Hp. apply IH.
Qed.

Lemma run_talk_keeps (ts : list (option jsstr * option jsstr)) :
  forall s, isVoice (run s (talk ts)) = isVoice s /\ calls (run s (talk ts)) = calls s.
Proof.
  induction ts as [|[dm dt] ts IH]; intros s; [auto|].
  rewrite talk_cons, run_cons.
  cbn [fst snd]. destruct (IH (step s (UserTalkingMessage dm dt))) as [H1 H2].
  rewrite H1, H2. cbn. destruct (or_str dm (or_str dt [])); auto.
Qed.

(** A voice turn in which no talking-message event carries text
    ([detail.message || detail.text] empty for each) starts no search, in
    either mode, even when the previous turn left a message behind:
    [USER_START] has cleared it. *)
Theorem silent_turn_no_retrieval (s : VState) (ts : list (option jsstr * option jsstr))
    (Hts : Forall no_text ts) :
  calls (run s (UserStart :: talk ts ++ [UserStop])) = calls s.
Proof.
  rewrite run_cons, run_app, (run_talk_silent ts Hts).
  cbn. destruct (isVoice s); reflexivity.
Qed.

Lemma silent_turn_no_retrieval_witness :
  calls (run (run (init true) (turn "What are the opening hours?"))
             (UserStart :: talk [(None, None); (Some [], Some [])] ++ [UserStop]))
  = calls (run (init true) (turn "What are the opening hours?")).
Proof.
  apply silent_turn_no_retrieval. repeat constructor.
Defined.

(** In voice mode, a turn [USER_START], talking messages, [USER_STOP]
    starts exactly one search, and its query is the text of the last
    talking message that carried any ([detail.message], else
    [detail.text]); earlier partial transcripts are overwritten. *)
Theorem turn_queries_last_transcript (s : VState)
    (ts1 ts2 : list (option jsstr * option jsstr)) (dm dt : option jsstr)
    (Hv : isVoice s = true) (Hm : or_str dm (or_str dt []) <> [])
    (Hts2 : Forall no_text ts2) :
  calls (run s (UserStart :: talk (ts1 ++ (dm, dt) :: ts2) ++ [UserStop]))
  = calls s ++ [or_str dm (or_str dt [])].
Proof.
  assert (Ht : talk (ts1 ++ (dm, dt) :: ts2) = talk ts1 ++ UserTalkingMessage dm dt :: talk ts2)
    by (unfold talk; rewrite map_app; reflexivity).
  rewrite Ht, run_cons, !run_app, (run_cons _ (UserTalkingMessage dm dt)),
    (run_talk_silent ts2 Hts2).
  destruct (run_talk_keeps ts1 (step s UserStart)) as [H1 H2].
  set (s1 := run (step s UserStart) (talk ts1)) in *.
  cbn [step]. destruct (or_str dm (or_str dt [])) as [|x m'] eqn:E; [contradiction|].
  cbn. rewrite H1. cbn. rewrite Hv. cbn. rewrite H2. reflexivity.
Qed.

Lemma turn_queries_last_transcript_witness :
  calls (run (run (init true) (turn "old question"))
             (UserStart :: talk ([(Some (of_ascii "What"), None)] ++
                                 (None, Some (of_ascii "What are the hours?")) ::
                                 [(None, None)]) ++ [UserStop]))
  = calls (run (init true) (turn "old question")) ++
    [or_str None (or_str (Some (of_ascii "What are the hours?")) [])].
Proof.
  apply turn_queries_last_transcript.
  - reflexivity.
  - cbn. discriminate.
  - repeat constructor.
Defined.

End VoiceSessionFacts.

(** ** The endpoint: fallbacks and composition with its callers *)
Module EndpointFacts.
Import Route TextTurn.

Lemma POST_context_le500 emb idx keys parsed :
  (length (context (fst (POST emb idx keys parsed))) <= 500)%nat.
Proof.
  unfold POST, search. RouteFacts.post_cases; cbn [fst context];
    try apply JsFacts.slice_500_length; cbn; lia.
Qed.

(** When [body.query] is absent or falsy (e.g. [""]), [POST] searches
    for [body.question], sent untrimmed to the embedding model
    [text-embedding-3-small]; the vector store is queried (top 3, with
    metadata) only once the embedding answered with a vector, and with
    that vector. *)
Theorem question_fallback emb idx (qv : option jsval) (q : jsstr)
    (Hqv : match qv with Some v => truthy v = false | None => True end)
    (Hq : length (trim q) <> 0%nat) :
  snd (POST emb idx true (Some {| b_query := qv; b_question := Some (JStr q) |})) =
    CallEmbed embed_model q ::
      match emb q with inr (v :: _) => [CallQuery v 3%nat true] | _ => [] end.
Proof.
  destruct q as [|c q']; [cbn in Hq; contradiction|].
  unfold POST, query_of, parse_body, or_val. cbn [negb b_query b_question].
  destruct qv as [v|]; [rewrite Hqv|]; cbn [truthy length Nat.eqb negb];
    (destruct (Nat.eqb (length (trim (c :: q'))) 0) eqn:E;
       [apply Nat.eqb_eq in E; contradiction|]);
    unfold search; destruct (emb (c :: q')) as [e|[|v' rest]]; try reflexivity;
    destruct (idx v' 3%nat true); reflexivity.
Qed.

Lemma question_fallback_witness :
  snd (POST Demo.embed_ok Demo.store_ok true
         (Some {| b_query := Some (JStr []); b_question := Some (JStr (of_ascii "What is X?")) |})) =
    CallEmbed embed_model (of_ascii "What is X?") ::
      match Demo.embed_ok (of_ascii "What is X?") with
      | inr (v :: _) => [CallQuery v 3%nat true] | _ => [] end.
Proof.
  apply question_fallback; [reflexivity | vm_compute; discriminate].
Defined.



(** A text-mode TALK turn whose knowledge request reaches [POST] (body
    [{query: message}]) sends exactly one message to the avatar: the
    original message, possibly followed by the reference label and the
    context, so it starts with the message and is at most
    [19 + 500] code units longer, whatever the services answer. *)
Theorem endpoint_text_turn_bounded emb idx (keys : bool) (message : jsstr)
    (mode : TaskMode) (Hm : length (trim message) <> 0%nat) :
  let r := fst (POST emb idx keys (Some {| b_query := Some (JStr message); b_question := None |})) in
  exists m', sent (handleSend message TALK mode (Some (success r, context r))) =
               [SendMessage mode m'] /\
             (exists suffix, m' = message ++ suffix) /\
             (length m' <= length message + 519)%nat.
Proof.
  intros r. unfold handleSend.
  destruct (Nat.eqb (length (trim message)) 0) eqn:E; [apply Nat.eqb_eq in E; contradiction|].
  assert (Hle := POST_context_le500 emb idx keys
                   (Some {| b_query := Some (JStr message); b_question := None |})).
  fold r in Hle.
  destruct (Client.searchKnowledge (Some (success r, context r))) as [|c ctx] eqn:Ek.
  - exists message. split; [reflexivity|]. split; [exists []; symmetry; apply app_nil_r | lia].
  - assert (Hc : c :: ctx = context r).
    { unfold Client.searchKnowledge in Ek.
      destruct (success r); [|discriminate]. destruct (context r); congruence. }
    exists (message ++ reference_label ++ c :: ctx). split; [reflexivity|].
    split; [eexists; reflexivity|].
    rewrite !length_app, Hc. cbn [reference_label length]. lia.
Qed.

Lemma endpoint_text_turn_bounded_witness :
  let r := fst (POST Demo.embed_ok Demo.store_ok true
                  (Some {| b_query := Some (JStr (of_ascii "What is X?")); b_question := None |})) in
  exists m', sent (handleSend (of_ascii "What is X?") TALK ASYNC (Some (success r, context r))) =
               [SendMessage ASYNC m'] /\
             (exists suffix, m' = of_ascii "What is X?" ++ suffix) /\
             (length m' <= length (of_ascii "What is X?") + 519)%nat.
Proof.
  apply endpoint_text_turn_bounded. vm_compute. discriminate.
Defined.

End EndpointFacts.

(** ** The listening effect of [TextInput] *)
Module ListeningFacts.
Import TextTurn.

Lemma listening_from (msgs : list jsstr) :
  forall p, let acts := listening_run (Some p) msgs in
  alternates (negb (filled p)) acts = true /\
  xorb (filled p) (Nat.odd (length acts)) = filled (last (p :: msgs) []).
Proof.
  induction msgs as [|m r IH]; intros p; cbn [listening_run].
  - cbn. destruct (filled p); auto.
  - destruct (IH m) as [Ha Hp].
    replace (last (p :: m :: r) []) with (last (m :: r) []) by reflexivity.
    destruct p as [|x p'], m as [|y m']; cbn in Ha, Hp |- *.
    + auto.
    + rewrite Ha. split; [reflexivity|]. rewrite Nat.odd_succ, <- Nat.negb_odd.
      destruct (Nat.odd _); cbn in *; congruence.
    + rewrite Ha. split; [reflexivity|]. rewrite Nat.odd_succ, <- Nat.negb_odd.
      destruct (Nat.odd _); cbn in *; congruence.
    + auto.
Qed.

(** Over any sequence of values of the input box (starting, as the
    component does, from [""] with no previous value), the effect calls
    [startListening] and [stopListening] strictly alternately, beginning
    with [startListening]; after the last value, listening was last
    started (an odd number of calls) exactly when the box is non-empty. *)
Theorem listening_tracks_input (msgs : list jsstr) :
  let acts := listening_run None ([] :: msgs) in
  alternates true acts = true /\
  Nat.odd (length acts) = filled (last ([] :: msgs) []).
Proof.
  cbn [listening_run listening_effect]. cbn.
  exact (listening_from msgs []).
Qed.

End ListeningFacts.

(** ** [uploadDocuments] *)
Module UploadFacts.
Import Ingest Upload.

Lemma embed_docs_ok embedText (vec : jsstr -> list Q) (docs : list Document)
    (Hemb : forall d, In d docs -> embedText (d_text d) = inr (vec (d_text d))) :
  embed_docs embedText docs =
    (map d_text docs,
     inr (map (fun d => {| r_id := d_id d; r_values := vec (d_text d);
                           r_source := d_source d; r_text := d_text d |}) docs)).
Proof.
  induction docs as [|d r IH]; [reflexivity|].
  cbn. rewrite Hemb by (left; reflexivity).
  rewrite IH by (intros d' Hd'; apply Hemb; right; exact Hd'). reflexivity.
Qed.

(** When every document embeds, [uploadDocuments] embeds the documents'
    texts in order and makes a single [index.upsert] call carrying one
    record per document, in order, with the document's id, its embedding
    and its text and source as metadata; it then reports that call's
    outcome. *)
Theorem upload_all_embedded embedText upsert (vec : jsstr -> list Q) (docs : list Document)
    (Hemb : forall d, In d docs -> embedText (d_text d) = inr (vec (d_text d))) :
  let recs := map (fun d => {| r_id := d_id d; r_values := vec (d_text d);
                               r_source := d_source d; r_text := d_text d |}) docs in
  uploadDocuments embedText upsert docs =
    {| u_embedded := map d_text docs; u_upserted := [recs]; u_result := upsert recs |}.
Proof.
  intros recs. unfold uploadDocuments. rewrite (embed_docs_ok embedText vec docs Hemb).
  reflexivity.
Qed.



Lemma upload_all_embedded_witness :
  let recs := map (fun d => {| r_id := d_id d; r_values := IngestDemo.w_vec (d_text d);
                               r_source := d_source d; r_text := d_text d |}) IngestDemo.w_docs in
  uploadDocuments IngestDemo.w_embed IngestDemo.w_upsert IngestDemo.w_docs =
    {| u_embedded := map d_text IngestDemo.w_docs; u_upserted := [recs];
       u_result := IngestDemo.w_upsert recs |}.
Proof.
  apply upload_all_embedded. intros d _. reflexivity.
Defined.


End UploadFacts.
